(** * Three-way KiCad-aware merge: a shallow embedding of
      [tool/kicad_auto_merge_3way.py] and the properties of its
      structural reconciliation engine.

    Texts are Python [str] values.  They are modelled as lists of 8-bit
    code points ([ascii], i.e. U+0000..U+00FF); the character predicates
    below tabulate Python's [str.isspace], [str.isalnum], [str.isdigit]
    and [str.lower] on that range.  Dictionaries are [gmap]s, sets are
    [gset]s, and the iteration order of a Python set, which the program
    does not control, is a section variable. *)

From Stdlib Require Import ZArith Ascii String List Lia.
From stdpp Require Import gmap strings list fin_maps finite.

Open Scope nat_scope.

Abbreviation text := (list ascii).

(** String literals of the source, as texts. *)
Definition txt (s : string) : text := list_ascii_of_string s.

Definition LF : ascii := ascii_of_nat 10.
Definition lparen : ascii := ascii_of_nat 40.
Definition rparen : ascii := ascii_of_nat 41.
Definition dquote : ascii := ascii_of_nat 34.
Definition backslash : ascii := ascii_of_nat 92.
Definition space : ascii := ascii_of_nat 32.

(** ** Character classes *)

Module Chr.

Definition code (c : ascii) : nat := nat_of_ascii c.

Definition between (lo hi : nat) (c : ascii) : bool :=
  (lo <=? code c) && (code c <=? hi).

Definition code_is (n : nat) (c : ascii) : bool := code c =? n.

(** [str.isspace]: TAB..CR, FS..US, SPACE, NEL, NBSP. *)
Definition isspace (c : ascii) : bool :=
  between 9 13 c || between 28 32 c || code_is 133 c || code_is 160 c.

Definition is_ascii_digit (c : ascii) : bool := between 48 57 c.
Definition is_ascii_upper (c : ascii) : bool := between 65 90 c.
Definition is_ascii_lower (c : ascii) : bool := between 97 122 c.

(** [str.isdigit]: 0-9 and the superscripts U+00B2, U+00B3, U+00B9. *)
Definition isdigit (c : ascii) : bool :=
  is_ascii_digit c || code_is 178 c || code_is 179 c || code_is 185 c.

(** [str.isalnum] on U+0000..U+00FF. *)
Definition isalnum (c : ascii) : bool :=
  is_ascii_digit c || is_ascii_upper c || is_ascii_lower c
  || code_is 170 c || code_is 178 c || code_is 179 c || code_is 181 c || code_is 185 c || code_is 186 c
  || between 188 190 c || between 192 214 c || between 216 246 c
  || between 248 255 c.

(** [str.lower] on one code point of U+0000..U+00FF. *)
Definition lower (c : ascii) : ascii :=
  if is_ascii_upper c || between 192 214 c || between 216 222 c
  then ascii_of_nat (code c + 32) else c.

(** The class [[0-9a-fA-F-]] of the identifier pattern. *)
Definition is_hex_or_hyphen (c : ascii) : bool :=
  is_ascii_digit c || between 97 102 c || between 65 70 c || code_is 45 c.

(** [s[k].isalnum() or s[k] in "_-"] *)
Definition is_head_char (c : ascii) : bool :=
  isalnum c || code_is 95 c || code_is 45 c.

(** The class [[A-Za-z0-9_:\-\.]] of [is_category_line]. *)
Definition is_ident_char (c : ascii) : bool :=
  is_ascii_upper c || is_ascii_lower c || is_ascii_digit c
  || code_is 95 c || code_is 58 c || code_is 45 c || code_is 46 c.

(** Line boundaries of [str.splitlines] other than the CR LF pair. *)
Definition is_linebreak (c : ascii) : bool :=
  between 10 13 c || between 28 30 c || code_is 133 c.

End Chr.

(** ** String primitives *)

(** Length of the longest prefix whose characters satisfy [p]: the
    number of iterations of [while j < n and p(s[j]): j += 1]. *)
Fixpoint span_len (p : ascii -> bool) (l : text) : nat :=
  match l with
  | c :: l' => if p c then S (span_len p l') else 0
  | [] => 0
  end.

(** Index of the first occurrence of [c], as [str.find] counts it. *)
Fixpoint index_of (c : ascii) (l : text) : option nat :=
  match l with
  | [] => None
  | d :: l' => if bool_decide (d = c) then Some 0 else S <$> index_of c l'
  end.

(** [s[i:j]], for strings and for lists. *)
Definition slice {A} (s : list A) (i j : nat) : list A := take (j - i) (drop i s).

Definition lower (s : text) : text := map Chr.lower s.

(** [s.startswith(p)] *)
Fixpoint startswith (p s : text) : bool :=
  match p, s with
  | [], _ => true
  | _ :: _, [] => false
  | a :: p', b :: s' => bool_decide (a = b) && startswith p' s'
  end.

(** [s.endswith(")")] *)
Definition ends_with_rparen (s : text) : bool :=
  match last s with
  | Some c => bool_decide (c = rparen)
  | None => false
  end.

(** [s.rstrip()] *)
Definition rstrip (s : text) : text :=
  reverse (drop (span_len Chr.isspace (reverse s)) (reverse s)).

(** [s.strip()] *)
Definition strip (s : text) : text :=
  rstrip (drop (span_len Chr.isspace s) s).

(** [sep.join(parts)] *)
Fixpoint join (sep : text) (parts : list text) : text :=
  match parts with
  | [] => []
  | [p] => p
  | p :: rest => p ++ sep ++ join sep rest
  end.

(** ** SHA-1 ([hashlib.sha1(block.encode("utf-8")).hexdigest()]) *)

Module Sha1.

Open Scope Z_scope.

Definition w32 (x : Z) : Z := x mod 4294967296.

Definition rotl (n x : Z) : Z :=
  w32 (Z.lor (Z.shiftl x n) (Z.shiftr x (32 - n))).

(** [str.encode("utf-8")] on U+0000..U+00FF. *)
Definition utf8 (s : text) : list Z :=
  flat_map (fun c =>
    let n := Z.of_nat (nat_of_ascii c) in
    if n <? 128 then [n]
    else [Z.lor 192 (Z.shiftr n 6); Z.lor 128 (Z.land n 63)]) s.

Definition be_bytes (count : nat) (x : Z) : list Z :=
  map (fun i => Z.land (Z.shiftr x (8 * Z.of_nat (count - 1 - i))) 255)
      (seq 0 count).

(** Message padding: 0x80, zeros up to 56 mod 64, 64-bit bit length. *)
Definition pad (msg : list Z) : list Z :=
  let len := Z.of_nat (length msg) in
  let zeros := Z.to_nat ((55 - len) mod 64) in
  msg ++ [128] ++ repeat 0 zeros ++ be_bytes 8 (8 * len).

Fixpoint words (bs : list Z) : list Z :=
  match bs with
  | a :: b :: c :: d :: bs' =>
      (Z.shiftl a 24 + Z.shiftl b 16 + Z.shiftl c 8 + d) :: words bs'
  | _ => []
  end.

(** Message schedule, most recent word first: [sched !! 0 = W(t-1)]. *)
Definition next_w (sched : list Z) : Z :=
  let g i := List.nth i sched 0 in
  rotl 1 (Z.lxor (Z.lxor (g 2%nat) (g 7%nat)) (Z.lxor (g 13%nat) (g 15%nat))).

Definition round_fk (t : nat) (b c d : Z) : Z * Z :=
  if (t <? 20)%nat then
    (Z.lor (Z.land b c) (Z.land (w32 (Z.lnot b)) d), 1518500249)
  else if (t <? 40)%nat then (Z.lxor (Z.lxor b c) d, 1859775393)
  else if (t <? 60)%nat then
    (Z.lor (Z.lor (Z.land b c) (Z.land b d)) (Z.land c d), 2400959708)
  else (Z.lxor (Z.lxor b c) d, 3395469782).

Definition state : Type := Z * Z * Z * Z * Z.

Definition round (t : nat) (w : Z) (st : state) : state :=
  let '(a, b, c, d, e) := st in
  let '(f, k) := round_fk t b c d in
  (w32 (rotl 5 a + f + e + k + w), a, rotl 30 b, c, d).

Fixpoint rounds (n : nat) (t : nat) (sched : list Z) (pending : list Z)
    (st : state) : state :=
  match n with
  | O => st
  | S n' =>
      let w := match pending with
               | x :: _ => x
               | [] => next_w sched
               end in
      rounds n' (S t) (w :: sched) (tl pending) (round t w st)
  end.

Definition compress (h : state) (block : list Z) : state :=
  let '(a, b, c, d, e) := rounds 80 0 [] block h in
  let '(h0, h1, h2, h3, h4) := h in
  (w32 (h0 + a), w32 (h1 + b), w32 (h2 + c), w32 (h3 + d), w32 (h4 + e)).

(** One compression per 16-word block; [fuel] bounds the number of
    blocks and [length ws] is always enough. *)
Fixpoint blocks (fuel : nat) (h : state) (ws : list Z) : state :=
  match fuel, ws with
  | S fuel', _ :: _ => blocks fuel' (compress h (take 16 ws)) (drop 16 ws)
  | _, _ => h
  end.

Definition init : state :=
  (1732584193, 4023233417, 2562383102, 271733878, 3285377520).

Definition digest (msg : list Z) : list Z :=
  let ws := words (pad msg) in
  let '(h0, h1, h2, h3, h4) := blocks (length ws) init ws in
  flat_map (be_bytes 4) [h0; h1; h2; h3; h4].

Definition hex_digit (n : Z) : ascii :=
  ascii_of_nat (Z.to_nat (if n <? 10 then 48 + n else 87 + n)).

Definition hex (bs : list Z) : text :=
  flat_map (fun b => [hex_digit (Z.shiftr b 4); hex_digit (Z.land b 15)]) bs.

Definition hexdigest (s : text) : text := hex (digest (utf8 s)).

End Sha1.

(** ** The block scanner *)

Definition HEAD_TOKENS : list text :=
  map txt
    ["symbol"; "wire"; "junction"; "no_connect"; "label"; "global_label";
     "hierarchical_label"; "sheet"; "bus"; "bus_entry"; "polyline"; "text";
     "image"; "group"; "note"; "dimension"]%string.

(** [head in HEAD_TOKENS] *)
Definition in_head_tokens (head : text) : bool :=
  bool_decide (head ∈ HEAD_TOKENS).

(** [s.find('(', start)]; [None] is Python's [-1]. *)
Definition next_paren (s : text) (start : nat) : option nat :=
  (fun k => start + k) <$> index_of lparen (drop start s).

(** [read_head(pos)]: skip whitespace after the delimiter, then read the
    run of alphanumeric, underscore and hyphen characters. *)
Definition read_head (s : text) (pos : nat) : text * nat :=
  let j := pos + 1 + span_len Chr.isspace (drop (pos + 1) s) in
  let k := j + span_len Chr.is_head_char (drop j s) in
  (slice s j k, k).

(** The [while j < n] loop of [match_paren], over the characters from
    [j] on; [None] is Python's [None]. *)
Fixpoint match_loop (l : text) (j : nat) (depth : Z) (in_str esc : bool)
    : option nat :=
  match l with
  | [] => None
  | c :: l' =>
      if in_str then
        if esc then match_loop l' (j + 1) depth in_str false
        else if bool_decide (c = backslash) then match_loop l' (j + 1) depth in_str true
        else if bool_decide (c = dquote) then match_loop l' (j + 1) depth false esc
        else match_loop l' (j + 1) depth in_str esc
      else
        if bool_decide (c = dquote) then match_loop l' (j + 1) depth true esc
        else if bool_decide (c = lparen) then match_loop l' (j + 1) (depth + 1) in_str esc
        else if bool_decide (c = rparen) then
          if (depth - 1 =? 0)%Z then Some (j + 1)
          else match_loop l' (j + 1) (depth - 1) in_str esc
        else match_loop l' (j + 1) depth in_str esc
  end.

Definition match_paren (s : text) (start : nat) : option nat :=
  match_loop (drop start s) start 0 false false.

(** *** The identifier pattern [\(uuid\s+([0-9a-fA-F-]{8,})\)]

    Whitespace, the token class and the closing delimiter are pairwise
    disjoint, so at a given start the pattern can only match with both
    runs maximal; [uuid_match_here_spec] below relates this to the
    pattern's language. *)

Fixpoint strip_prefix (p s : text) : option text :=
  match p, s with
  | [], _ => Some s
  | _ :: _, [] => None
  | a :: p', b :: s' => if bool_decide (a = b) then strip_prefix p' s' else None
  end.

(** The pattern anchored at the head of [l]; the result is group 1. *)
Definition uuid_match_here (l : text) : option text :=
  match strip_prefix (txt "(uuid") l with
  | None => None
  | Some r =>
      let ws := span_len Chr.isspace r in
      let r' := drop ws r in
      let m := span_len Chr.is_hex_or_hyphen r' in
      if (ws =? 0) || (m <? 8) then None
      else match drop m r' with
           | c :: _ => if bool_decide (c = rparen) then Some (take m r') else None
           | [] => None
           end
  end.

(** [re.search(pattern, block)]: the match at the leftmost start. *)
Fixpoint re_search_uuid (l : text) : option text :=
  match uuid_match_here l with
  | Some g => Some g
  | None => match l with
            | [] => None
            | _ :: l' => re_search_uuid l'
            end
  end.

(** The identity resolver (lines 94-98 of the source). *)
Definition identity (block : text) : text :=
  match re_search_uuid block with
  | Some g => lower g
  | None => Sha1.hexdigest block
  end.

(** The [while True] loop of [parse_top_blocks].  Each iteration moves
    [pos] forward by at least one character, so [fuel] above
    [length s - pos] is never exhausted ([parse_loop_fuel]). *)
Fixpoint parse_loop (fuel : nat) (s : text) (pos : nat)
    : list (text * text * text) :=
  match fuel with
  | O => []
  | S fuel' =>
      match next_paren s pos with
      | None => []
      | Some pos =>
          let '(head, _) := read_head s pos in
          match match_paren s pos with
          | None => []
          | Some end_ =>
              let block := slice s pos end_ in
              (if in_head_tokens head
               then [(head, identity block, block)] else [])
              ++ parse_loop fuel' s end_
          end
      end
  end.

Definition parse_top_blocks (doc : option text) : list (text * text * text) :=
  match doc with
  | None => []
  | Some s => parse_loop (S (length s)) s 0
  end.

(** The loop of [find_blocks_with_pos], which also records positions. *)
Fixpoint find_loop (fuel : nat) (s : text) (pos : nat)
    : list (text * text * nat * nat * text) :=
  match fuel with
  | O => []
  | S fuel' =>
      match next_paren s pos with
      | None => []
      | Some pos =>
          let '(head, _) := read_head s pos in
          match match_paren s pos with
          | None => []
          | Some end_ =>
              let block := slice s pos end_ in
              (if in_head_tokens head
               then [(head, identity block, pos, end_, block)] else [])
              ++ find_loop fuel' s end_
          end
      end
  end.

Definition find_blocks_with_pos (s : text) : list (text * text * nat * nat * text) :=
  find_loop (S (length s)) s 0.

(** ** Snapshots, the reconciler and the rebuilder *)

(** An ObjectKey: (head keyword, identity). *)
Abbreviation key := (text * text)%type.

(** [{(h,u):blk for (h,u,blk) in blocks}]: a later block with the same
    key overwrites an earlier one. *)
Definition snapshot (blocks : list (text * text * text)) : gmap key text :=
  foldl (fun m '(h, u, blk) => <[(h, u) := blk]> m) ∅ blocks.

(** [key in d] for a dict [d]. *)
Definition has_key {V} (d : gmap key V) (k : key) : bool :=
  bool_decide (is_Some (d !! k)).

Definition skeleton : text :=
  txt "(kicad_sch (version 20211014) (generator merged)" ++ [LF] ++ txt ")".

Definition block_key (b : text * text * nat * nat * text) : key :=
  let '(h, u, _, _, _) := b in (h, u).

Definition block_end (b : text * text * nat * nat * text) : nat :=
  let '(_, _, _, en, _) := b in en.

(** The ObjectKey of a block, read off its text. *)
Definition text_key (block : text) : key :=
  ((read_head block 0).1, identity block).

(** The keys that have a position in [s]. *)
Definition block_keys (s : text) : list key :=
  map block_key (find_blocks_with_pos s).

(** The state of the reconciler's loop: [keep_keys] and [replace_map]. *)
Abbreviation decisions := (gset key * gmap key text)%type.

(** The state of the rebuilder's loop: [out], [last], [present_keys]. *)
Abbreviation rebuild_state := (list text * nat * gset key)%type.

Section Reconcile.

(** The order in which Python iterates over a set: every element
    exactly once, in an order the program does not choose. *)
Variable set_iter : gset key -> list key.
Hypothesis set_iter_perm : forall X, set_iter X ≡ₚ elements X.

(** The body of the [for] loop of [rebuild_from]. *)
Definition rebuild_step (s : text) (keep_map : gset key)
    (replace_map : gmap key text) (st : rebuild_state)
    (b : text * text * nat * nat * text) : rebuild_state :=
  let '(out, last, present_keys) := st in
  let '(head, uid, start, end_, block) := b in
  let key := (head, uid) in
  if bool_decide (key ∈ keep_map) then
    (out ++ [slice s last start] ++ [default block (replace_map !! key)],
     end_, present_keys ∪ {[key]})
  else
    (out ++ [slice s last start], end_, present_keys).

(** The [for] loop of [rebuild_from] over [blocks_pos]. *)
Definition rebuild_scan (s : text) (keep_map : gset key)
    (replace_map : gmap key text) : rebuild_state :=
  foldl (rebuild_step s keep_map replace_map) ([], 0, ∅)
        (find_blocks_with_pos s).

(** [rebuild_from]; [None] is the [KeyError] of [replace_map[k]]. *)
Definition rebuild_from (base_text : option text) (keep_map : gset key)
    (replace_map : gmap key text) : option text :=
  let s := default skeleton base_text in
  let '(out, last, present_keys) := rebuild_scan s keep_map replace_map in
  let merged := rstrip (concat (out ++ [drop last s])) in
  missing ← mapM (fun k => replace_map !! k)
                 (filter (fun k => k ∉ present_keys) (set_iter keep_map));
  Some (match missing with
        | [] => merged
        | _ :: _ =>
            (if ends_with_rparen merged
             then take (length merged - 1) merged else merged)
            ++ [LF] ++ join [LF; LF] missing ++ [LF] ++ txt ")"
        end).

(** The kept keys that have no position in [s], in the order in which
    [rebuild_from] visits them to build [missing]. *)
Definition orphans (s : text) (keep_map : gset key) : list key :=
  filter (fun k => k ∉ block_keys s) (set_iter keep_map).

(** [choose_overlap(h,u)] *)
Definition choose_overlap (mode : text) (B H : gmap key text) (k : key)
    : option text :=
  if bool_decide (mode = txt "prefer-head") then H !! k else B !! k.

Definition keep_with (blk : option text) (k : key) (st : decisions)
    : option decisions :=
  b ← blk; Some ({[k]} ∪ st.1, <[k := b]> st.2).

(** The body of the [for (h,u) in keys] loop of [merge_kicad_3way];
    [None] is the [KeyError] of a failed dictionary lookup. *)
Definition merge_step (M B H : gmap key text) (mode : text)
    (allow_deletions : bool) (st : decisions) (k : key) : option decisions :=
  let inM := has_key M k in
  let inB := has_key B k in
  let inH := has_key H k in
  if negb inM && inB && negb inH then keep_with (B !! k) k st
  else if negb inM && negb inB && inH then keep_with (H !! k) k st
  else if inM && inB && negb inH then
    if allow_deletions then Some st else keep_with (B !! k) k st
  else if inM && negb inB && inH then keep_with (H !! k) k st
  else if inM && inB && inH then keep_with (choose_overlap mode B H k) k st
  else if negb inM && inB && inH then keep_with (choose_overlap mode B H k) k st
  else Some st.

Fixpoint merge_loop (M B H : gmap key text) (mode : text)
    (allow_deletions : bool) (ks : list key) (st : decisions)
    : option decisions :=
  match ks with
  | [] => Some st
  | k :: ks' =>
      st' ← merge_step M B H mode allow_deletions st k;
      merge_loop M B H mode allow_deletions ks' st'
  end.

(** The reconciler: lines 190-239 of [merge_kicad_3way], from the
    three fetched texts to [keep_keys] and [replace_map]. *)
Definition reconcile (mb_txt base_txt head_txt : option text) (mode : text)
    (allow_deletions : bool) : option decisions :=
  let M := snapshot (parse_top_blocks mb_txt) in
  let B := snapshot (parse_top_blocks base_txt) in
  let H := snapshot (parse_top_blocks head_txt) in
  let keys := dom M ∪ dom B ∪ dom H in
  merge_loop M B H mode allow_deletions (set_iter keys) (∅, ∅).

(** [merge_kicad_3way], as a function of what [git_show] returned for
    the merge base, the base branch and HEAD. *)
Definition merge_kicad_3way (mb_txt base_txt head_txt : option text)
    (mode : text) (allow_deletions : bool) : option text :=
  '(keep_keys, replace_map) ←
    reconcile mb_txt base_txt head_txt mode allow_deletions;
  rebuild_from base_txt keep_keys replace_map.

End Reconcile.

(** ** The footprint-info cache *)

(** [s.isdigit()] *)
Definition str_isdigit (s : text) : bool :=
  negb (bool_decide (s = [])) && forallb Chr.isdigit s.

Definition is_category_line (line : text) : bool :=
  let s := strip line in
  if bool_decide (s = []) then false
  else if bool_decide (space ∈ s) then false
  else if startswith (txt "http") (lower s) then false
  else if str_isdigit s then false
  else negb (bool_decide (s = [])) && forallb Chr.is_ident_char s.

(** [text.splitlines()]; [cur] is the line being read. *)
Fixpoint splitlines_from (cur : text) (s : text) : list text :=
  match s with
  | [] => match cur with [] => [] | _ :: _ => [cur] end
  | c :: s' =>
      if bool_decide (c = ascii_of_nat 13) then
        match s' with
        | d :: s'' =>
            if bool_decide (d = LF) then cur :: splitlines_from [] s''
            else cur :: splitlines_from [] s'
        | [] => cur :: splitlines_from [] s'
        end
      else if Chr.is_linebreak c then cur :: splitlines_from [] s'
      else splitlines_from (cur ++ [c]) s'
  end.

Definition splitlines (s : text) : list text := splitlines_from [] s.

(** The inner [while j < len(lines) - 1] loop of [parse_info_blocks],
    over [ls = lines[j:]]; the result is the final [j]. *)
Fixpoint inner_loop (ls : list text) (j : nat) : nat :=
  match ls with
  | a :: ls' =>
      match ls' with
      | b :: _ =>
          if is_category_line a && is_category_line b then j
          else inner_loop ls' (j + 1)
      | [] => j
      end
  | [] => j
  end.

(** The outer [while i < len(lines) - 1] loop.  [i] grows in every
    iteration, so [fuel] above [length lines - i] is never exhausted. *)
Fixpoint info_loop (fuel : nat) (lines : list text) (i : nat)
    : list (key * list text) :=
  match fuel with
  | O => []
  | S fuel' =>
      if i + 1 <? length lines then
        if is_category_line (nth i lines []) && is_category_line (nth (i + 1) lines [])
        then
          let cat := strip (nth i lines []) in
          let fpn := strip (nth (i + 1) lines []) in
          let j := inner_loop (drop (i + 2) lines) (i + 2) in
          ((cat, fpn), slice lines i j) :: info_loop fuel' lines j
        else info_loop fuel' lines (i + 1)
      else []
  end.

Definition parse_info_lines (lines : list text) : list (key * list text) :=
  info_loop (length lines) lines 0.

Definition parse_info_blocks (doc : option text) : list (key * list text) :=
  match doc with
  | None => []
  | Some s => parse_info_lines (splitlines s)
  end.

(** The state of the union: the dict [out] and the list [order]. *)
Abbreviation union_state := (gmap key (list text) * list key)%type.

(** The body of the loop of [add_blocks]. *)
Definition add_block (st : union_state) (r : key * list text) : union_state :=
  let '(out, order) := st in
  let '(key, blines) := r in
  (<[key := blines]> out,
   if has_key out key then order else order ++ [key]).

Definition add_blocks (st : union_state) (doc : text) : union_state :=
  foldl add_block st (parse_info_blocks (Some doc)).

(** [git_show(...) or ""] *)
Definition or_empty (doc : option text) : text :=
  match doc with
  | Some (c :: s) => c :: s
  | _ => []
  end.

Definition fp_info_union (mb_txt base_txt head_txt : option text) : union_state :=
  add_blocks (add_blocks (add_blocks (∅, []) (or_empty mb_txt))
                         (or_empty base_txt))
             (or_empty head_txt).

(** [merge_fp_info_3way]; [None] is the [KeyError] of [out[key]]. *)
Definition merge_fp_info_3way (mb_txt base_txt head_txt : option text)
    : option text :=
  let '(out, order) := fp_info_union mb_txt base_txt head_txt in
  merged_lines ← mapM (fun key => out !! key) order;
  Some (join [LF] (concat merged_lines) ++ [LF]).

(** ** Names for the parts of the rebuilder and of the scanner *)

(** ["".join(out)] after the loop of [rebuild_from], before [rstrip]. *)
Definition rebuild_joined (s : text) (keep_map : gset key)
    (replace_map : gmap key text) : text :=
  let '(out, last, _) := rebuild_scan s keep_map replace_map in
  concat (out ++ [drop last s]).

(** [merged[:-1]] when [merged.endswith(")")]. *)
Definition strip_close (merged : text) : text :=
  if ends_with_rparen merged then take (length merged - 1) merged else merged.

(** The [if missing:] step of [rebuild_from]. *)
Definition append_missing (merged : text) (missing : list text) : text :=
  match missing with
  | [] => merged
  | _ :: _ => strip_close merged ++ [LF] ++ join [LF; LF] missing ++ [LF] ++ txt ")"
  end.

(** The position at which the scanning loop gives up: the delimiter
    found by [next_paren] for which [match_paren] returns [None]. *)
Fixpoint failure_loop (fuel : nat) (s : text) (pos : nat) : option nat :=
  match fuel with
  | O => None
  | S fuel' =>
      match next_paren s pos with
      | None => None
      | Some p =>
          match match_paren s p with
          | None => Some p
          | Some e => failure_loop fuel' s e
          end
      end
  end.

Definition failure_point (s : text) : option nat :=
  failure_loop (S (length s)) s 0.

(** No two recognised top-level blocks of [s] with the same ObjectKey
    differ in text. *)
Definition consistent_keys (s : text) : Prop :=
  forall h u b1 b2,
    (h, u, b1) ∈ parse_top_blocks (Some s) ->
    (h, u, b2) ∈ parse_top_blocks (Some s) -> b1 = b2.

(** ** Header candidates, in the specification's words *)

(** [s] begins with the four characters [http], each in either case. *)
Definition begins_http_any_case (s : text) : Prop :=
  exists c1 c2 c3 c4 rest,
    s = c1 :: c2 :: c3 :: c4 :: rest
    /\ (c1 = "h"%char \/ c1 = "H"%char)
    /\ (c2 = "t"%char \/ c2 = "T"%char)
    /\ (c3 = "t"%char \/ c3 = "T"%char)
    /\ (c4 = "p"%char \/ c4 = "P"%char).

(** Some two consecutive lines of [ls] are both header candidates. *)
Fixpoint has_header_pair (ls : list text) : bool :=
  match ls with
  | a :: ls' =>
      match ls' with
      | b :: _ => (is_category_line a && is_category_line b) || has_header_pair ls'
      | [] => false
      end
  | [] => false
  end.

(** A cache document whose only record runs to the end of the text. *)
Definition cache_doc : text :=
  join [LF] (map txt ["Resistor_SMD"; "R_0603"; "0603 resistor"; "2"]%string).

(** ** Record union, in the specification's words *)

(** The lines of the last record of [recs] that has key [k]. *)
Fixpoint latest (k : key) (recs : list (key * list text)) : option (list text) :=
  match recs with
  | [] => None
  | (k', ls) :: rest =>
      match latest k rest with
      | Some l => Some l
      | None => if decide (k' = k) then Some ls else None
      end
  end.

(** [order] lists keys by first occurrence in [keys]: a key that stands
    before another in [order] occurs in [keys] before the other's first
    occurrence. *)
Definition first_seen_order (keys order : list key) : Prop :=
  forall i j k1 k2,
    order !! i = Some k1 -> order !! j = Some k2 -> i < j ->
    exists n, keys !! n = Some k1 /\ forall m, m <= n -> keys !! m <> Some k2.

(** The records of the three documents in processing order. *)
Definition all_records (mb_txt base_txt head_txt : option text)
    : list (key * list text) :=
  parse_info_blocks (Some (or_empty mb_txt))
  ++ parse_info_blocks (Some (or_empty base_txt))
  ++ parse_info_blocks (Some (or_empty head_txt)).

(** ** The unique-identifier field, in the specification's words *)

(** At offset [i] of [block] stands a parenthesised [uuid] tag, then
    whitespace, then the token [tok] of at least 8 hexadecimal or
    hyphen characters, then the closing delimiter. *)
Definition uuid_field_at (block : text) (i : nat) (tok : text) : Prop :=
  exists ws post,
    i <= length block
    /\ drop i block = txt "(uuid" ++ ws ++ tok ++ [rparen] ++ post
    /\ ws <> []
    /\ Forall (fun c => Chr.isspace c = true) ws
    /\ Forall (fun c => Chr.is_hex_or_hyphen c = true) tok
    /\ 8 <= length tok.

Definition has_uuid_field (block : text) : Prop :=
  exists i tok, uuid_field_at block i tok.

(** The field at [i] is the leftmost one of [block]. *)
Definition first_uuid_field (block : text) (i : nat) (tok : text) : Prop :=
  uuid_field_at block i tok
  /\ forall j tok', j < i -> ~ uuid_field_at block j tok'.

(** One block text without identifier field per bit string, and the
    bits of a character; they serve to count digests. *)
Definition bits_block (bits : list bool) : text :=
  txt "(wire "
  ++ map (fun b : bool => if b then "x"%char else "y"%char) bits
  ++ txt ")".

Abbreviation octet :=
  (bool * bool * bool * bool * bool * bool * bool * bool)%type.

Definition ascii_bits (c : ascii) : octet :=
  let '(Ascii b0 b1 b2 b3 b4 b5 b6 b7) := c in (b0, b1, b2, b3, b4, b5, b6, b7).

(** ** The classification table, in the specification's words *)

Inductive decision := keep_from_mainline | keep_from_proposed | dropped.

Inductive overlap_resolution := prefer_proposed | prefer_mainline.

(** The [--mode] value that selects each policy. *)
Definition mode_of (p : overlap_resolution) : text :=
  match p with
  | prefer_proposed => txt "prefer-head"
  | prefer_mainline => txt "prefer-base"
  end.

Definition by_policy (p : overlap_resolution) : decision :=
  match p with
  | prefer_proposed => keep_from_proposed
  | prefer_mainline => keep_from_mainline
  end.

(** One row per line of the table; a key in none of the three
    snapshots is not in the union and has no row. *)
Definition classification (inM inB inH : bool) (p : overlap_resolution)
    (allow_deletions : bool) : option decision :=
  match inM, inB, inH with
  | false, true, false => Some keep_from_mainline
  | false, false, true => Some keep_from_proposed
  | true, true, false =>
      Some (if allow_deletions then dropped else keep_from_mainline)
  | true, false, true => Some keep_from_proposed
  | true, true, true => Some (by_policy p)
  | false, true, true => Some (by_policy p)
  | true, false, false => Some dropped
  | false, false, false => None
  end.

(** What a decision means for the reconciler's result: a kept key is in
    [keep_keys] and [replace_map] holds the block of the chosen side. *)
Definition decided (d : decision) (B H : gmap key text) (st : decisions)
    (k : key) : Prop :=
  match d with
  | keep_from_mainline => k ∈ st.1 /\ is_Some (B !! k) /\ st.2 !! k = B !! k
  | keep_from_proposed => k ∈ st.1 /\ is_Some (H !! k) /\ st.2 !! k = H !! k
  | dropped => k ∉ st.1
  end.

(** ** Auxiliary notions of the proofs *)

Definition forget_pos (b : text * text * nat * nat * text) : text * text * text :=
  let '(h, u, _, _, blk) := b in (h, u, blk).

(** The blocks of a scan lie one after the other in the text. *)
Inductive chained (s : text) : nat -> list (text * text * nat * nat * text) -> Prop :=
| chained_nil pos : chained s pos []
| chained_cons pos h st en rest :
    pos <= st -> st < en -> en <= length s ->
    in_head_tokens h = true ->
    chained s en rest ->
    chained s pos ((h, identity (slice s st en), st, en, slice s st en) :: rest).

(** What one iteration decides for its key: the block to keep, or
    [None] for a key that is dropped. *)
Definition verdict (M B H : gmap key text) (mode : text)
    (allow_deletions : bool) (k : key) : option text :=
  if has_key B k then
    if has_key H k then choose_overlap mode B H k
    else if has_key M k && allow_deletions then None else B !! k
  else if has_key H k then H !! k else None.

Definition apply_verdict (v : option text) (k : key) (st : decisions) : decisions :=
  match v with
  | Some b => ({[k]} ∪ st.1, <[k := b]> st.2)
  | None => st
  end.

(** What holds of [out] and [order] after the records [recs]. *)
Definition union_ok (recs : list (key * list text)) (st : union_state) : Prop :=
  NoDup st.2
  /\ (forall k, k ∈ st.2 <-> k ∈ map fst recs)
  /\ (forall k, st.1 !! k = latest k recs)
  /\ first_seen_order (map fst recs) st.2.

(** ** Concrete documents *)

(** The code points of a character class. *)
Definition codes_where (p : ascii -> bool) : list nat :=
  filter (fun n => p (ascii_of_nat n) = true) (seq 0 256).

Definition wire_a1 : text := txt "(wire (uuid aaaaaaaa) 1)".
Definition wire_a2 : text := txt "(wire (uuid aaaaaaaa) 2)".
Definition wire_b : text := txt "(wire (uuid bbbbbbbb))".
Definition key_a : key := (txt "wire", txt "aaaaaaaa").
Definition key_b : key := (txt "wire", txt "bbbbbbbb").

(** A block with two identifier fields. *)
Definition wire_ab : text := txt "(wire (uuid aaaaaaaa) (uuid bbbbbbbb))".

(** A text whose second top-level construct is never closed. *)
Definition unbalanced : text := wire_a1 ++ txt " (sheet (wire)".

(** A text that is one unclosed construct ending in a closing delimiter. *)
Definition unclosed_sheet : text := txt "(sheet (wire)".

(** Two blocks, free text between them and trailing whitespace. *)
Definition two_wires : text :=
  wire_a1 ++ txt " x " ++ wire_b ++ [space; LF].

(** The same identifier on two blocks of different content. *)
Definition twice_a : text := wire_a1 ++ wire_a2.

(** ** Names for the further properties *)

Definition block_start (b : text * text * nat * nat * text) : nat :=
  let '(_, _, st, _, _) := b in st.

Definition block_text (b : text * text * nat * nat * text) : text :=
  let '(_, _, _, _, blk) := b in blk.

(** [b] is a recognised construct of [s]: a span of [s] that opens and
    closes with a delimiter, filed under the key of its own text. *)
Definition well_placed (s : text) (b : text * text * nat * nat * text) : Prop :=
  block_start b < block_end b /\ block_end b <= length s
  /\ block_text b = slice s (block_start b) (block_end b)
  /\ s !! block_start b = Some lparen
  /\ s !! (block_end b - 1) = Some rparen
  /\ in_head_tokens (block_key b).1 = true
  /\ block_key b = text_key (block_text b).

(** Number of occurrences of [c]. *)
Fixpoint count_char (c : ascii) (s : text) : nat :=
  match s with
  | [] => 0
  | d :: s' => (if bool_decide (d = c) then 1 else 0) + count_char c s'
  end.

(** The characters of an identity: [0-9], [a-f] and the hyphen. *)
Definition is_identity_char (c : ascii) : bool :=
  Chr.between 48 57 c || Chr.between 97 102 c || Chr.code_is 45 c.

(** [s] has one top-level construct, and its head keyword is not a
    recognised one (a whole [kicad_sch] file is such a text). *)
Definition unrecognised_root (s : text) : Prop :=
  exists p e,
    next_paren s 0 = Some p /\ match_paren s p = Some e
    /\ in_head_tokens (read_head s p).1 = false
    /\ next_paren s e = None.

(** The mainline document, when present, has consistent keys. *)
Definition consistent_mainline (base : option text) : Prop :=
  match base with
  | Some s => consistent_keys s
  | None => True
  end.

(** [lines[j]] and [lines[j+1]] are both header candidates. *)
Definition header_pair_at (lines : list text) (j : nat) : bool :=
  is_category_line (nth j lines []) && is_category_line (nth (j + 1) lines []).

(** No character of [l] is a line boundary of [str.splitlines]. *)
Definition no_linebreak (l : text) : Prop :=
  Forall (fun c => Chr.is_linebreak c = false) l.

(** [out[key] = blines], the dictionary part of [add_block]. *)
Definition store (m : gmap key (list text)) (r : key * list text)
    : gmap key (list text) := <[r.1 := r.2]> m.

(** ** The changed files *)

(** How a function of the tool ends: it returns a value, or it leaves
    the process through [sys.exit] after writing to standard error. *)
Inductive outcome (A : Type) : Type :=
| returns (a : A)
| exits (code : Z) (stderr : text).
Global Arguments returns {A} a.
Global Arguments exits {A} code stderr.

(** [changed_files], as a function of what
    [sh("git","diff","--name-only",...)] returned: the return code, the
    standard output and the standard error.  [print] ends what it
    writes with a line feed. *)
Definition changed_files (diff : Z * text * text) : outcome (list text) :=
  let '(rc, out, err) := diff in
  if bool_decide (rc <> 0%Z) then exits 2 (err ++ [LF])
  else returns (map strip (filter (fun l => strip l <> []) (splitlines out))).

(** Two documents under one [kicad_sch] root, as KiCad writes them. *)
Definition rooted_a : text :=
  txt "(kicad_sch (version 1) " ++ wire_a1 ++ txt ")".
Definition rooted_ab : text :=
  txt "(kicad_sch (version 1) " ++ wire_a2 ++ wire_b ++ txt ")".




(** * Properties *)

(** ** The library functions on known values *)

Example isspace_codes :
  codes_where Chr.isspace = [9; 10; 11; 12; 13; 28; 29; 30; 31; 32; 133; 160].
Proof. vm_compute. reflexivity. Qed.

Example isdigit_codes :
  codes_where Chr.isdigit
  = [48; 49; 50; 51; 52; 53; 54; 55; 56; 57; 178; 179; 185].
Proof. vm_compute. reflexivity. Qed.

Example is_linebreak_codes :
  codes_where Chr.is_linebreak = [10; 11; 12; 13; 28; 29; 30; 133].
Proof. vm_compute. reflexivity. Qed.

Example isalnum_codes :
  codes_where Chr.isalnum
  = seq 48 10 ++ seq 65 26 ++ seq 97 26
    ++ [170; 178; 179; 181; 185; 186; 188; 189; 190]
    ++ seq 192 23 ++ seq 216 31 ++ seq 248 8.
Proof. vm_compute. reflexivity. Qed.

Example lower_codes :
  codes_where (fun c => negb (bool_decide (Chr.lower c = c)))
  = seq 65 26 ++ seq 192 23 ++ seq 216 7.
Proof. vm_compute. reflexivity. Qed.

Example splitlines_example :
  splitlines (txt "ab" ++ [ascii_of_nat 13; LF] ++ txt "cd"
              ++ [ascii_of_nat 13; ascii_of_nat 13] ++ txt "x" ++ [LF])
  = [txt "ab"; txt "cd"; []; txt "x"].
Proof. vm_compute. reflexivity. Qed.

Example sha1_latin1 :
  Sha1.hexdigest (txt "h" ++ [ascii_of_nat 233] ++ txt "llo " ++ [ascii_of_nat 255])
  = txt "d54b140bcbe59e7acee4051379c8a32598d37253".
Proof. vm_compute. reflexivity. Qed.

Example sha1_abc :
  Sha1.hexdigest (txt "abc") = txt "a9993e364706816aba3e25717850c26c9cd0d89d".
Proof. vm_compute. reflexivity. Qed.

Example sha1_empty :
  Sha1.hexdigest [] = txt "da39a3ee5e6b4b0d3255bfef95601890afd80709".
Proof. vm_compute. reflexivity. Qed.

Example sha1_two_blocks :
  Sha1.hexdigest (txt "abcdbcdecdefdefgefghfghighijhijkijkljklmklmnlmnomnopnopq")
  = txt "84983e441c3bd26ebaae4aa1f95129e5e54670f1".
Proof. vm_compute. reflexivity. Qed.


Global Arguments read_head : simpl never.
Global Arguments next_paren : simpl never.
Global Arguments match_paren : simpl never.
Global Arguments identity : simpl never.
Global Arguments in_head_tokens : simpl never.
Global Arguments slice : simpl never.

(** ** The scanner's primitives *)

Lemma index_of_Some c l i :
  index_of c l = Some i ->
  l !! i = Some c /\ forall j, j < i -> l !! j <> Some c.
Proof.
  revert i. induction l as [|d l IH]; intros i; simpl; [done|].
  case_bool_decide as Hd.
  - intros [= <-]. subst. split; [done|]. intros j Hj. lia.
  - destruct (index_of c l) as [k|] eqn:Hk; simpl; [|done].
    intros [= <-]. destruct (IH k eq_refl) as [H1 H2]. split; [done|].
    intros [|j] Hj; simpl; [congruence|]. apply H2. lia.
Qed.

Lemma index_of_None c l : index_of c l = None -> c ∉ l.
Proof.
  induction l as [|d l IH]; simpl; [intros _; apply not_elem_of_nil|].
  case_bool_decide as Hd; [done|].
  destruct (index_of c l); simpl; [done|]. intros _.
  rewrite not_elem_of_cons. split; [congruence|]. by apply IH.
Qed.

Lemma next_paren_Some s pos p :
  next_paren s pos = Some p ->
  pos <= p /\ p < length s /\ s !! p = Some lparen
  /\ forall j, pos <= j -> j < p -> s !! j <> Some lparen.
Proof.
  unfold next_paren.
  destruct (index_of lparen (drop pos s)) as [k|] eqn:Hk; simpl; [|done].
  intros [= <-]. apply index_of_Some in Hk as [H1 H2].
  rewrite lookup_drop in H1. split; [lia|]. split.
  { by apply lookup_lt_Some in H1. }
  split; [done|]. intros j Hj1 Hj2.
  specialize (H2 (j - pos)). rewrite lookup_drop in H2.
  replace (pos + (j - pos)) with j in H2 by lia. apply H2. lia.
Qed.

Lemma match_loop_bounds l j depth in_str esc e :
  match_loop l j depth in_str esc = Some e -> j < e /\ e <= j + length l.
Proof.
  revert j depth in_str esc.
  induction l as [|c l IH]; intros j depth in_str esc; simpl; [done|].
  repeat (case_bool_decide || case_match); try (intros [= <-]; lia);
    intros Hm; apply IH in Hm; lia.
Qed.

Lemma match_paren_bounds s p e :
  match_paren s p = Some e -> p < e /\ e <= length s.
Proof.
  unfold match_paren. intros H. apply match_loop_bounds in H.
  rewrite length_drop in H. lia.
Qed.

(** ** Fuel: the scanning loops never run out *)

Local Opaque read_head.

Lemma parse_loop_S f s pos :
  parse_loop (S f) s pos =
    match next_paren s pos with
    | None => []
    | Some p =>
        match match_paren s p with
        | None => []
        | Some e =>
            (if in_head_tokens (read_head s p).1
             then [((read_head s p).1, identity (slice s p e), slice s p e)]
             else [])
            ++ parse_loop f s e
        end
    end.
Proof.
  simpl. destruct (next_paren s pos) as [p|]; [|done].
  destruct (read_head s p) as [head k]. by destruct (match_paren s p).
Qed.

Lemma find_loop_S f s pos :
  find_loop (S f) s pos =
    match next_paren s pos with
    | None => []
    | Some p =>
        match match_paren s p with
        | None => []
        | Some e =>
            (if in_head_tokens (read_head s p).1
             then [((read_head s p).1, identity (slice s p e), p, e, slice s p e)]
             else [])
            ++ find_loop f s e
        end
    end.
Proof.
  simpl. destruct (next_paren s pos) as [p|]; [|done].
  destruct (read_head s p) as [head k]. by destruct (match_paren s p).
Qed.

Local Transparent read_head.

Lemma find_loop_fuel f1 f2 s pos :
  length s - pos < f1 -> length s - pos < f2 ->
  find_loop f1 s pos = find_loop f2 s pos.
Proof.
  revert f2 pos. induction f1 as [|f1 IH]; intros f2 pos H1 H2; [lia|].
  destruct f2 as [|f2]; [lia|]. rewrite !find_loop_S.
  destruct (next_paren s pos) as [p|] eqn:Hp; [|done].
  apply next_paren_Some in Hp as (Hp1 & Hp2 & _).
  destruct (match_paren s p) as [e|] eqn:He; [|done].
  apply match_paren_bounds in He. f_equal. apply IH; lia.
Qed.

(** The loop equation of [find_blocks_with_pos], with the same fuel on
    both sides: the recursion is the [while True] of the source. *)
Lemma find_loop_unfold f s pos :
  length s - pos < f ->
  find_loop f s pos =
    match next_paren s pos with
    | None => []
    | Some p =>
        match match_paren s p with
        | None => []
        | Some e =>
            (if in_head_tokens (read_head s p).1
             then [((read_head s p).1, identity (slice s p e), p, e, slice s p e)]
             else [])
            ++ find_loop f s e
        end
    end.
Proof.
  intros Hf. destruct f as [|f]; [lia|]. rewrite find_loop_S.
  destruct (next_paren s pos) as [p|] eqn:Hp; [|done].
  apply next_paren_Some in Hp as (Hp1 & Hp2 & _).
  destruct (match_paren s p) as [e|] eqn:He; [|done].
  apply match_paren_bounds in He. f_equal. apply find_loop_fuel; lia.
Qed.

(** [parse_top_blocks] and [find_blocks_with_pos] scan alike. *)
Lemma parse_loop_find_loop f s pos :
  parse_loop f s pos = map forget_pos (find_loop f s pos).
Proof.
  revert pos. induction f as [|f IH]; intros pos; [done|].
  rewrite find_loop_S, parse_loop_S.
  destruct (next_paren s pos) as [p|]; [|done].
  destruct (match_paren s p) as [e|]; [|done].
  rewrite map_app, IH. by destruct (in_head_tokens _).
Qed.

Lemma parse_loop_fuel f1 f2 s pos :
  length s - pos < f1 -> length s - pos < f2 ->
  parse_loop f1 s pos = parse_loop f2 s pos.
Proof.
  intros H1 H2. rewrite !parse_loop_find_loop. f_equal.
  by apply find_loop_fuel.
Qed.

Lemma parse_top_blocks_find s :
  parse_top_blocks (Some s) = map forget_pos (find_blocks_with_pos s).
Proof. apply parse_loop_find_loop. Qed.

Lemma chained_weaken s pos pos' l : pos' <= pos -> chained s pos l -> chained s pos' l.
Proof. intros Hle H. destruct H; constructor; auto; lia. Qed.

Lemma find_loop_chained f s pos : chained s pos (find_loop f s pos).
Proof.
  revert pos. induction f as [|f IH]; intros pos; [constructor|].
  rewrite find_loop_S.
  destruct (next_paren s pos) as [p|] eqn:Hp; [|constructor].
  apply next_paren_Some in Hp as (Hp1 & Hp2 & _).
  destruct (match_paren s p) as [e|] eqn:He; [|constructor].
  apply match_paren_bounds in He.
  destruct (in_head_tokens _) eqn:Hh; simpl.
  - constructor; auto; lia.
  - apply chained_weaken with e; [lia|apply IH].
Qed.

Lemma failure_loop_fuel f1 f2 s pos :
  length s - pos < f1 -> length s - pos < f2 ->
  failure_loop f1 s pos = failure_loop f2 s pos.
Proof.
  revert f2 pos. induction f1 as [|f1 IH]; intros f2 pos H1 H2; [lia|].
  destruct f2 as [|f2]; [lia|]. simpl.
  destruct (next_paren s pos) as [p|] eqn:Hp; [|done].
  apply next_paren_Some in Hp as (Hp1 & Hp2 & _).
  destruct (match_paren s p) as [e|] eqn:He; [|done].
  apply match_paren_bounds in He. apply IH; lia.
Qed.

(** ** The reconciler *)

Lemma has_key_true {V} (d : gmap key V) k :
  has_key d k = true <-> is_Some (d !! k).
Proof. unfold has_key. by rewrite bool_decide_eq_true. Qed.

Lemma has_key_false {V} (d : gmap key V) k :
  has_key d k = false <-> d !! k = None.
Proof.
  unfold has_key. rewrite bool_decide_eq_false. symmetry. apply eq_None_not_Some.
Qed.

Lemma has_key_dom {V} (d : gmap key V) k : has_key d k = true <-> k ∈ dom d.
Proof. by rewrite has_key_true, elem_of_dom. Qed.

Lemma merge_step_verdict M B H mode allow st k :
  merge_step M B H mode allow st k
  = Some (apply_verdict (verdict M B H mode allow k) k st).
Proof.
  unfold merge_step, verdict, choose_overlap.
  destruct (has_key M k) eqn:HM, (has_key B k) eqn:HB, (has_key H k) eqn:HH;
    simpl; try done;
    try (apply has_key_true in HB as [b Hb]);
    try (apply has_key_true in HH as [h Hh]);
    destruct allow; simpl; try case_bool_decide;
    rewrite ?Hb, ?Hh; done.
Qed.

Lemma merge_loop_verdict M B H mode allow ks st :
  merge_loop M B H mode allow ks st
  = Some (foldl (fun st k => apply_verdict (verdict M B H mode allow k) k st) st ks).
Proof.
  revert st. induction ks as [|k ks IH]; intros st; simpl; [done|].
  rewrite merge_step_verdict. simpl. apply IH.
Qed.

Lemma fold_verdict_keep (v : key -> option text) ks st k :
  k ∈ (foldl (fun st k => apply_verdict (v k) k st) st ks).1
  <-> k ∈ st.1 \/ (k ∈ ks /\ is_Some (v k)).
Proof.
  revert st. induction ks as [|a ks IH]; intros st; simpl.
  { rewrite elem_of_nil. tauto. }
  rewrite IH, elem_of_cons. unfold apply_verdict.
  destruct (v a) as [b|] eqn:Ha; simpl.
  - assert (is_Some (v a)) by (rewrite Ha; eauto).
    rewrite elem_of_union, elem_of_singleton.
    split; intros; intuition (subst; tauto).
  - assert (~ is_Some (v a)) by (rewrite Ha; intros [? ?]; done).
    split; intros; intuition (subst; tauto).
Qed.

Lemma fold_verdict_replace (v : key -> option text) ks st k :
  (foldl (fun st k => apply_verdict (v k) k st) st ks).2 !! k
  = if bool_decide (k ∈ ks /\ is_Some (v k)) then v k else st.2 !! k.
Proof.
  revert st. induction ks as [|a ks IH]; intros st; cbn [foldl].
  { case_bool_decide as Hk; [|done]. destruct Hk as [Hk _].
    by apply elem_of_nil in Hk. }
  rewrite IH. unfold apply_verdict.
  case_bool_decide as H1; case_bool_decide as H2; try done.
  - exfalso. apply H2. rewrite elem_of_cons. tauto.
  - destruct H2 as [H2 Hs]. apply elem_of_cons in H2 as [->|H2]; [|tauto].
    destruct (v a) as [b|] eqn:Ha; [|by destruct Hs].
    simpl. by rewrite lookup_insert_eq.
  - destruct (v a) as [b|] eqn:Ha; [|done]. simpl.
    rewrite lookup_insert_ne; [done|]. intros ->.
    apply H2. rewrite elem_of_cons, Ha. eauto.
Qed.

Lemma verdict_in_union M B H mode allow k :
  is_Some (verdict M B H mode allow k) -> k ∈ dom M ∪ dom B ∪ dom H.
Proof.
  unfold verdict. rewrite !elem_of_union, <- !has_key_dom.
  destruct (has_key B k), (has_key H k); try tauto. by intros [? ?].
Qed.

Section ReconcileFacts.

Variable set_iter : gset key -> list key.
Hypothesis set_iter_perm : forall X, set_iter X ≡ₚ elements X.

Lemma elem_of_set_iter (X : gset key) k : k ∈ set_iter X <-> k ∈ X.
Proof. by rewrite set_iter_perm, elem_of_elements. Qed.


(** The reconciler always returns, and its result is the verdict of
    every key. *)
Lemma reconcile_verdict mb base head mode allow :
  exists st,
    reconcile set_iter mb base head mode allow = Some st
    /\ forall k,
        (k ∈ st.1 <->
         is_Some (verdict (snapshot (parse_top_blocks mb))
                          (snapshot (parse_top_blocks base))
                          (snapshot (parse_top_blocks head)) mode allow k))
        /\ st.2 !! k =
           verdict (snapshot (parse_top_blocks mb))
                   (snapshot (parse_top_blocks base))
                   (snapshot (parse_top_blocks head)) mode allow k.
Proof.
  unfold reconcile. rewrite merge_loop_verdict. eexists. split; [done|].
  intros k. rewrite fold_verdict_keep, fold_verdict_replace.
  cbn [fst snd].
  set (v := verdict _ _ _ mode allow k).
  assert (Hu : is_Some v -> k ∈ dom (snapshot (parse_top_blocks mb))
                              ∪ dom (snapshot (parse_top_blocks base))
                              ∪ dom (snapshot (parse_top_blocks head)))
    by apply verdict_in_union.
  split.
  - rewrite elem_of_set_iter, elem_of_empty. tauto.
  - case_bool_decide as Hk; [done|]. rewrite lookup_empty.
    destruct v eqn:Hv; [|done]. exfalso. apply Hk.
    rewrite elem_of_set_iter. split; [|eauto]. apply Hu. eauto.
Qed.

(** C1.  For every triple of snapshot texts and every ObjectKey in the
    union of the three parsed snapshots, the reconciler returns and its
    decision for the key is the row of the classification table:
    only in B, kept from B; only in H, kept from H; in M and B but not
    H, dropped when deletions are allowed and kept from B otherwise;
    in M and H but not B, kept from H; in all three or in B and H
    only, kept with the block of the side the overlap policy names
    (prefer-proposed: H, prefer-mainline: B); only in M, dropped. *)
Theorem C1_classification_table mb base head p allow k :
  k ∈ dom (snapshot (parse_top_blocks mb))
      ∪ dom (snapshot (parse_top_blocks base))
      ∪ dom (snapshot (parse_top_blocks head)) ->
  exists st d,
    reconcile set_iter mb base head (mode_of p) allow = Some st
    /\ classification (has_key (snapshot (parse_top_blocks mb)) k)
                      (has_key (snapshot (parse_top_blocks base)) k)
                      (has_key (snapshot (parse_top_blocks head)) k)
                      p allow = Some d
    /\ decided d (snapshot (parse_top_blocks base))
                 (snapshot (parse_top_blocks head)) st k.
Proof.
  intros Hin.
  destruct (reconcile_verdict mb base head (mode_of p) allow) as (st & Hst & Hk).
  destruct (Hk k) as [Hk1 Hk2]. clear Hk.
  exists st. rewrite !elem_of_union, <- !has_key_dom in Hin.
  revert Hk1 Hk2. unfold verdict, choose_overlap.
  destruct (has_key (snapshot (parse_top_blocks mb)) k) eqn:HM,
           (has_key (snapshot (parse_top_blocks base)) k) eqn:HB,
           (has_key (snapshot (parse_top_blocks head)) k) eqn:HH;
    try solve [exfalso; destruct Hin as [[?|?]|?]; discriminate];
    try (apply has_key_true in HB); try (apply has_key_true in HH);
    destruct allow, p; cbn -[txt];
    try (rewrite bool_decide_eq_true_2 by reflexivity);
    try (rewrite bool_decide_eq_false_2 by (vm_compute; discriminate));
    intros Hk1 Hk2; eexists; (split; [exact Hst|]); (split; [reflexivity|]);
    cbn; rewrite ?Hk1, ?Hk2; try tauto;
    try (intros [? ?]; discriminate).
Qed.

(** C2.  A key that is absent from the ancestor snapshot and present
    in the mainline or the proposed one is never dropped: it is in the
    keep set, whatever the overlap mode and the deletion flag. *)
Theorem C2_new_work_is_kept mb base head mode allow k :
  k ∉ dom (snapshot (parse_top_blocks mb)) ->
  k ∈ dom (snapshot (parse_top_blocks base))
      ∪ dom (snapshot (parse_top_blocks head)) ->
  exists st,
    reconcile set_iter mb base head mode allow = Some st /\ k ∈ st.1.
Proof.
  intros HnM Hin.
  destruct (reconcile_verdict mb base head mode allow) as (st & Hst & Hk).
  exists st. split; [exact Hst|]. apply Hk.
  rewrite elem_of_union, <- !has_key_dom in Hin.
  rewrite <- has_key_dom in HnM. apply not_true_is_false in HnM.
  unfold verdict, choose_overlap. rewrite HnM.
  destruct (has_key (snapshot (parse_top_blocks base)) k) eqn:HB,
           (has_key (snapshot (parse_top_blocks head)) k) eqn:HH;
    try (apply has_key_true in HB); try (apply has_key_true in HH);
    simpl; try case_bool_decide; try done.
  destruct Hin; discriminate.
Qed.

End ReconcileFacts.

(** ** Texts *)

Lemma slice_drop {A} (s : list A) a b :
  a <= b -> slice s a b ++ drop b s = drop a s.
Proof.
  intros Hab. unfold slice.
  replace (drop b s) with (drop (b - a) (drop a s)).
  - apply take_drop.
  - rewrite drop_drop. f_equal. lia.
Qed.

Lemma slice_take {A} (s : list A) a b n :
  b <= n -> slice (take n s) a b = slice s a b.
Proof.
  intros Hb. unfold slice. rewrite skipn_firstn_comm, take_take.
  f_equal. lia.
Qed.

Lemma span_len_le p l : span_len p l <= length l.
Proof. induction l as [|c l IH]; simpl; [lia|]. destruct (p c); simpl; lia. Qed.

Lemma span_len_stop p l i c :
  l !! i = Some c -> p c = false -> span_len p l <= i.
Proof.
  revert i. induction l as [|d l IH]; intros i Hi Hc; simpl; [lia|].
  destruct i as [|i]; simpl in Hi.
  - injection Hi as ->. rewrite Hc. lia.
  - destruct (p d); [|lia]. apply IH in Hi; [lia|done].
Qed.

Lemma span_len_app p a b c :
  c ∈ a -> p c = false -> span_len p (a ++ b) = span_len p a.
Proof.
  induction a as [|d a IH]; intros Hin Hc.
  { by apply elem_of_nil in Hin. }
  simpl. destruct (p d) eqn:Hd; [|done]. f_equal. apply IH; [|done].
  apply elem_of_cons in Hin as [->|?]; [congruence|done].
Qed.

Lemma span_len_take p l n :
  span_len p l < n -> span_len p (take n l) = span_len p l.
Proof.
  revert n. induction l as [|d l IH]; intros n Hn; [by rewrite take_nil|].
  destruct n as [|n]; [lia|]. simpl in *. destruct (p d); [|done].
  f_equal. apply IH. lia.
Qed.

Lemma rstrip_app s t c :
  c ∈ t -> Chr.isspace c = false -> rstrip (s ++ t) = s ++ rstrip t.
Proof.
  intros Hin Hc. unfold rstrip. rewrite reverse_app.
  assert (Hr : c ∈ reverse t) by by rewrite elem_of_reverse.
  rewrite (span_len_app _ _ _ c Hr Hc).
  rewrite drop_app_le by apply span_len_le.
  by rewrite reverse_app, reverse_involutive.
Qed.

Lemma rstrip_nonempty t c :
  c ∈ t -> Chr.isspace c = false -> rstrip t <> [].
Proof.
  intros Hin Hc. unfold rstrip. intros Hnil.
  apply (f_equal reverse) in Hnil. rewrite reverse_involutive in Hnil.
  change (reverse []) with (@nil ascii) in Hnil.
  apply (f_equal length) in Hnil. rewrite length_drop in Hnil. simpl in Hnil.
  apply elem_of_reverse in Hin. apply list_elem_of_lookup in Hin as [i Hi].
  pose proof (span_len_stop _ _ _ _ Hi Hc) as Hle.
  apply lookup_lt_Some in Hi. lia.
Qed.

Lemma strip_close_app s t : t <> [] -> strip_close (s ++ t) = s ++ strip_close t.
Proof.
  intros Ht. unfold strip_close, ends_with_rparen.
  destruct (exists_last Ht) as (t' & c & ->).
  rewrite !app_assoc, !last_snoc, !length_app. simpl.
  case_bool_decide; [|by rewrite <- app_assoc].
  replace (length s + length t' + 1 - 1) with (length (s ++ t'))
    by (rewrite length_app; lia).
  replace (length t' + 1 - 1) with (length t') by lia.
  by rewrite !take_app_length.
Qed.

Lemma append_missing_app s t missing :
  t <> [] -> append_missing (s ++ t) missing = s ++ append_missing t missing.
Proof.
  intros Ht. destruct missing as [|m ms]; simpl; [done|].
  rewrite strip_close_app by done. by rewrite <- !app_assoc.
Qed.

(** ** Snapshots *)

Lemma snapshot_snoc bs h u blk :
  snapshot (bs ++ [(h, u, blk)]) = <[(h, u) := blk]> (snapshot bs).
Proof. unfold snapshot. by rewrite foldl_app. Qed.

Lemma snapshot_lookup_Some bs k blk :
  snapshot bs !! k = Some blk -> (k.1, k.2, blk) ∈ bs.
Proof.
  induction bs as [|[[h u] b] bs IH] using rev_ind; [done|].
  rewrite snapshot_snoc, elem_of_app, list_elem_of_singleton.
  destruct (decide ((h, u) = k)) as [<-|Hne].
  - rewrite lookup_insert_eq. intros [= ->]. by right.
  - rewrite lookup_insert_ne by done. intros Hk. left. by apply IH.
Qed.

Lemma snapshot_dom bs k :
  k ∈ dom (snapshot bs) <-> exists blk, (k.1, k.2, blk) ∈ bs.
Proof.
  induction bs as [|[[h u] b] bs IH] using rev_ind.
  { unfold snapshot. simpl. rewrite dom_empty_L. split.
    - intros Hk. by apply elem_of_empty in Hk.
    - intros [blk Hk]. by apply elem_of_nil in Hk. }
  rewrite snapshot_snoc, dom_insert_L, elem_of_union, elem_of_singleton, IH.
  destruct k as [kh ku]. simpl. split.
  - intros [[= -> ->]|[blk Hk]].
    + exists b. rewrite elem_of_app, list_elem_of_singleton. by right.
    + exists blk. rewrite elem_of_app. by left.
  - intros [blk Hk]. rewrite elem_of_app, list_elem_of_singleton in Hk.
    destruct Hk as [Hk|[= -> -> ->]]; [right; eauto|by left].
Qed.

Lemma forget_pos_key b : ((forget_pos b).1.1, (forget_pos b).1.2) = block_key b.
Proof. by destruct b as [[[[h u] st] en] blk]. Qed.

(** The keys of the snapshot of [s] are the keys with a position in [s]. *)
Lemma block_keys_dom s k :
  k ∈ block_keys s <-> k ∈ dom (snapshot (parse_top_blocks (Some s))).
Proof.
  rewrite snapshot_dom, parse_top_blocks_find. unfold block_keys.
  rewrite list_elem_of_fmap. split.
  - intros ([[[[h u] st] en] blk] & -> & Hb). exists blk.
    apply list_elem_of_fmap. by exists (h, u, st, en, blk).
  - intros (blk & Hb). apply list_elem_of_fmap in Hb as (b & Hb1 & Hb2).
    exists b. split; [|done]. rewrite <- forget_pos_key, <- Hb1. by destruct k.
Qed.

(** ** Scanning a prefix of the text *)

Lemma index_of_take_Some c l i n :
  index_of c l = Some i -> i < n -> index_of c (take n l) = Some i.
Proof.
  revert i n. induction l as [|d l IH]; intros i n; simpl; [done|].
  destruct n as [|n]; [lia|]. simpl.
  case_bool_decide; [done|].
  destruct (index_of c l) as [k|] eqn:Hk; simpl; [|done].
  intros [= <-] Hn. rewrite (IH k n); [done|done|lia].
Qed.

Lemma index_of_take_None c l i :
  index_of c l = Some i -> index_of c (take i l) = None.
Proof.
  revert i. induction l as [|d l IH]; intros i; simpl; [done|].
  case_bool_decide.
  - by intros [= <-].
  - destruct (index_of c l) as [k|] eqn:Hk; simpl; [|done].
    intros [= <-]. simpl. rewrite bool_decide_eq_false_2 by done.
    by rewrite (IH k).
Qed.

Lemma next_paren_take_Some s pos q n :
  next_paren s pos = Some q -> q < n -> next_paren (take n s) pos = Some q.
Proof.
  unfold next_paren. rewrite skipn_firstn_comm.
  destruct (index_of lparen (drop pos s)) as [k|] eqn:Hk; simpl; [|done].
  intros [= <-] Hn. rewrite (index_of_take_Some _ _ k); [done|done|lia].
Qed.

Lemma next_paren_take_None s pos q :
  next_paren s pos = Some q -> next_paren (take q s) pos = None.
Proof.
  unfold next_paren. rewrite skipn_firstn_comm.
  destruct (index_of lparen (drop pos s)) as [k|] eqn:Hk; simpl; [|done].
  intros [= <-]. replace (pos + k - pos) with k by lia.
  by rewrite (index_of_take_None _ _ k).
Qed.

Lemma match_loop_take l j depth in_str esc e n :
  match_loop l j depth in_str esc = Some e -> e <= j + n ->
  match_loop (take n l) j depth in_str esc = Some e.
Proof.
  revert j depth in_str esc n.
  induction l as [|c l IH]; intros j depth in_str esc n; simpl; [done|].
  intros Hm Hn.
  assert (j < e) by (apply (match_loop_bounds (c :: l) j depth in_str esc); done).
  destruct n as [|n]; [lia|]. simpl.
  repeat (case_bool_decide || case_match); try done;
    apply IH; try done; lia.
Qed.

Lemma match_paren_take s q e n :
  match_paren s q = Some e -> e <= n -> match_paren (take n s) q = Some e.
Proof.
  unfold match_paren. intros Hm Hn. rewrite skipn_firstn_comm.
  apply match_loop_take; [done|].
  apply match_loop_bounds in Hm. lia.
Qed.

(** A match ends just after a closing delimiter. *)
Lemma match_loop_rparen l j depth in_str esc e :
  match_loop l j depth in_str esc = Some e -> l !! (e - 1 - j) = Some rparen.
Proof.
  revert j depth in_str esc.
  induction l as [|c l IH]; intros j depth in_str esc; simpl; [done|].
  intros Hm.
  repeat (case_bool_decide || case_match);
    try (injection Hm as <-; replace (j + 1 - 1 - j) with 0 by lia; simpl; congruence);
    (pose proof (match_loop_bounds _ _ _ _ _ _ Hm);
     apply IH in Hm;
     replace (e - 1 - j) with (S (e - 1 - (j + 1))) by lia; exact Hm).
Qed.

Lemma match_paren_rparen s q e :
  match_paren s q = Some e -> s !! (e - 1) = Some rparen.
Proof.
  intros Hm. pose proof (match_paren_bounds _ _ _ Hm).
  apply match_loop_rparen in Hm. rewrite lookup_drop in Hm.
  by replace (q + (e - 1 - q)) with (e - 1) in Hm by lia.
Qed.

(** The head keyword is read inside the matched construct. *)
Lemma read_head_inside s q e :
  s !! q = Some lparen -> match_paren s q = Some e ->
  (read_head s q).2 < e.
Proof.
  intros Hq Hm. pose proof (match_paren_bounds _ _ _ Hm) as [Hlt Hle].
  pose proof (match_paren_rparen _ _ _ Hm) as Hr.
  assert (q + 1 <= e - 1).
  { destruct (decide (e - 1 = q)) as [Heq|]; [|lia].
    rewrite Heq, Hq in Hr. discriminate. }
  unfold read_head. simpl.
  assert (Hj : span_len Chr.isspace (drop (q + 1) s) <= e - 1 - (q + 1)).
  { apply span_len_stop with rparen; [|done].
    rewrite lookup_drop. rewrite <- Hr. f_equal. lia. }
  set (j := q + 1 + span_len Chr.isspace (drop (q + 1) s)) in *.
  assert (span_len Chr.is_head_char (drop j s) <= e - 1 - j).
  { apply span_len_stop with rparen; [|done].
    rewrite lookup_drop. rewrite <- Hr. f_equal. lia. }
  lia.
Qed.

Lemma read_head_take_bound s q n :
  (read_head s q).2 < n -> read_head (take n s) q = read_head s q.
Proof.
  intros Hk. unfold read_head in *. simpl in Hk.
  rewrite (skipn_firstn_comm (q + 1)).
  rewrite span_len_take by lia.
  set (j := q + 1 + span_len Chr.isspace (drop (q + 1) s)) in *.
  rewrite (skipn_firstn_comm j).
  rewrite span_len_take by lia.
  rewrite slice_take by lia. done.
Qed.

Lemma read_head_take s q e n :
  s !! q = Some lparen -> match_paren s q = Some e -> e <= n ->
  read_head (take n s) q = read_head s q.
Proof.
  intros Hq Hm Hn. pose proof (read_head_inside _ _ _ Hq Hm) as Hk.
  apply read_head_take_bound. lia.
Qed.

Lemma read_head_drop s q :
  read_head (drop q s) 0 = ((read_head s q).1, (read_head s q).2 - q).
Proof.
  unfold read_head. simpl. rewrite !drop_drop.
  set (a := span_len Chr.isspace (drop (q + 1) s)).
  replace (q + S a) with (q + 1 + a) by lia.
  set (b := span_len Chr.is_head_char (drop (q + 1 + a) s)).
  f_equal; [|lia]. unfold slice. rewrite drop_drop.
  f_equal; [lia|]. f_equal. lia.
Qed.

(** The head keyword of a matched construct can be read off its text. *)
Lemma read_head_slice s q e :
  s !! q = Some lparen -> match_paren s q = Some e ->
  (read_head (slice s q e) 0).1 = (read_head s q).1.
Proof.
  intros Hq Hm. pose proof (read_head_inside _ _ _ Hq Hm) as Hk.
  pose proof (match_paren_bounds _ _ _ Hm) as [Hlt Hle].
  unfold slice. rewrite read_head_take_bound; rewrite read_head_drop; simpl; [done|].
  unfold read_head in Hk. simpl in Hk. lia.
Qed.

Lemma find_loop_text_key f s pos b :
  b ∈ find_loop f s pos -> block_key b = text_key (forget_pos b).2.
Proof.
  revert pos. induction f as [|f IH]; intros pos.
  { intros Hb. by apply elem_of_nil in Hb. }
  rewrite find_loop_S.
  destruct (next_paren s pos) as [q|] eqn:Hq;
    [|intros Hb; by apply elem_of_nil in Hb].
  apply next_paren_Some in Hq as (_ & _ & Hq & _).
  destruct (match_paren s q) as [e|] eqn:He;
    [|intros Hb; by apply elem_of_nil in Hb].
  rewrite elem_of_app. intros [Hb|Hb]; [|by eapply IH].
  destruct (in_head_tokens _); [|by apply elem_of_nil in Hb].
  apply list_elem_of_singleton in Hb as ->. simpl. unfold text_key.
  by rewrite (read_head_slice _ _ _ Hq He).
Qed.


(** ** The rebuilder's loop *)

Lemma rebuild_fold_present (s : text) (keep : gset key) (replace : gmap key text)
    (bs : list (text * text * nat * nat * text)) (st0 : rebuild_state) (k : key) :
  k ∈ (foldl (rebuild_step s keep replace) st0 bs).2
  <-> k ∈ st0.2 \/ (k ∈ map block_key bs /\ k ∈ keep).
Proof.
  revert st0. induction bs as [|b bs IH]; intros [[out last] present].
  { simpl. rewrite elem_of_nil. tauto. }
  cbn [foldl map]. rewrite IH, elem_of_cons.
  destruct b as [[[[h u] st] en] blk]. unfold rebuild_step. simpl.
  case_bool_decide as Hk; simpl.
  - rewrite elem_of_union, elem_of_singleton.
    split; intros; intuition (subst; tauto).
  - split; intros; intuition (subst; tauto).
Qed.

Lemma rebuild_scan_present (s : text) (keep : gset key) (replace : gmap key text) (k : key) :
  k ∈ (rebuild_scan s keep replace).2 <-> k ∈ block_keys s /\ k ∈ keep.
Proof.
  unfold rebuild_scan. rewrite rebuild_fold_present. simpl.
  rewrite elem_of_empty. unfold block_keys. tauto.
Qed.

(** When every block is kept and replaced by its own text, the loop
    copies the document. *)
Lemma rebuild_fold_copy (s : text) (keep : gset key) (replace : gmap key text)
    (pos : nat)
    (bs : list (text * text * nat * nat * text)) (st0 : rebuild_state) :
  chained s pos bs -> st0.1.2 <= pos ->
  (forall b, b ∈ bs -> block_key b ∈ keep /\ replace !! block_key b = Some (forget_pos b).2) ->
  let r := foldl (rebuild_step s keep replace) st0 bs in
  concat r.1.1 ++ drop r.1.2 s = concat st0.1.1 ++ drop st0.1.2 s.
Proof.
  intros Hch. revert st0.
  induction Hch as [pos|pos h st en rest H1 H2 H3 Hh Hch IH];
    intros [[out last] present] Hlast Hall; simpl in *; [done|].
  destruct (Hall _ (list_elem_of_here _ _)) as [Hk Hr]. simpl in Hk, Hr.
  rewrite bool_decide_eq_true_2 by done. rewrite Hr. simpl.
  rewrite IH; simpl; [|lia|].
  - rewrite concat_app. simpl. rewrite app_nil_r, <- !app_assoc.
    f_equal. rewrite (slice_drop s st en) by lia. apply slice_drop. lia.
  - intros b Hb. apply Hall. by right.
Qed.

Lemma rebuild_joined_eq (s : text) (keep : gset key) (replace : gmap key text) :
  rebuild_joined s keep replace
  = concat (rebuild_scan s keep replace).1.1 ++ drop (rebuild_scan s keep replace).1.2 s.
Proof.
  unfold rebuild_joined. destruct (rebuild_scan s keep replace) as [[out last] pk].
  rewrite concat_app. simpl. by rewrite app_nil_r.
Qed.

Lemma filter_ext_elem {A} (P Q : A -> Prop) `{forall x, Decision (P x)}
    `{forall x, Decision (Q x)} (l : list A) :
  (forall x, x ∈ l -> P x <-> Q x) -> filter P l = filter Q l.
Proof.
  induction l as [|a l IH]; intros Hext; [done|].
  rewrite !filter_cons.
  pose proof (Hext a (list_elem_of_here _ _)) as Ha.
  rewrite IH by (intros x Hx; apply Hext; by right).
  destruct (decide (P a)), (decide (Q a)); tauto.
Qed.

Lemma filter_none {A} (P : A -> Prop) `{forall x, Decision (P x)} (l : list A) :
  (forall x, x ∈ l -> ~ P x) -> filter P l = [].
Proof.
  induction l as [|a l IH]; intros Hno; [done|].
  rewrite filter_cons. destruct (decide (P a)) as [Ha|Ha].
  - by apply Hno in Ha; [|left].
  - apply IH. intros x Hx. apply Hno. by right.
Qed.

Lemma filter_all {A} (P : A -> Prop) `{forall x, Decision (P x)} (l : list A) :
  (forall x, x ∈ l -> P x) -> filter P l = l.
Proof.
  induction l as [|a l IH]; intros Hall; [done|].
  rewrite filter_cons. destruct (decide (P a)) as [Ha|Ha].
  - f_equal. apply IH. intros x Hx. apply Hall. by right.
  - destruct Ha. apply Hall. by left.
Qed.

Lemma block_keys_skeleton : block_keys skeleton = [].
Proof. vm_compute. reflexivity. Qed.

Lemma rebuild_joined_skeleton (keep : gset key) (replace : gmap key text) :
  rebuild_joined skeleton keep replace = skeleton.
Proof.
  unfold rebuild_joined, rebuild_scan.
  replace (find_blocks_with_pos skeleton) with (@nil (text * text * nat * nat * text))
    by (vm_compute; reflexivity).
  reflexivity.
Qed.

Lemma rstrip_skeleton : rstrip skeleton = skeleton.
Proof. vm_compute. reflexivity. Qed.

Section RebuildFacts.

Variable set_iter : gset key -> list key.
Hypothesis set_iter_perm : forall X, set_iter X ≡ₚ elements X.

(** [rebuild_from] in terms of its parts. *)
Lemma rebuild_from_orphans (base : option text) (keep : gset key) (replace : gmap key text) :
  rebuild_from set_iter base keep replace
  = (missing ← mapM (fun k => replace !! k)
                    (orphans set_iter (default skeleton base) keep);
     Some (append_missing
             (rstrip (rebuild_joined (default skeleton base) keep replace))
             missing)).
Proof.
  unfold rebuild_from, orphans, rebuild_joined.
  pose proof (rebuild_scan_present (default skeleton base) keep replace) as Hp.
  destruct (rebuild_scan (default skeleton base) keep replace)
    as [[out last] present]. simpl in Hp.
  rewrite (filter_ext_elem (fun k => k ∉ present)
                           (fun k => k ∉ block_keys (default skeleton base))).
  - destruct (mapM _ _) as [missing|]; simpl; [|done]. by destruct missing.
  - intros k Hk. apply (elem_of_set_iter set_iter set_iter_perm) in Hk.
    rewrite Hp. tauto.
Qed.


Lemma elem_of_orphans (s : text) (keep : gset key) (k : key) :
  k ∈ orphans set_iter s keep <-> k ∈ keep /\ k ∉ block_keys s.
Proof.
  unfold orphans. rewrite list_elem_of_filter.
  rewrite (elem_of_set_iter set_iter set_iter_perm). tauto.
Qed.

Lemma reconcile_inv mb base head mode allow st :
  reconcile set_iter mb base head mode allow = Some st ->
  forall k,
    (k ∈ st.1 <->
     is_Some (verdict (snapshot (parse_top_blocks mb))
                      (snapshot (parse_top_blocks base))
                      (snapshot (parse_top_blocks head)) mode allow k))
    /\ st.2 !! k =
       verdict (snapshot (parse_top_blocks mb))
               (snapshot (parse_top_blocks base))
               (snapshot (parse_top_blocks head)) mode allow k.
Proof.
  intros Hst.
  destruct (reconcile_verdict set_iter set_iter_perm mb base head mode allow)
    as (st' & Hst' & Hk).
  rewrite Hst in Hst'. by injection Hst' as <-.
Qed.

Lemma merge_kicad_3way_eq mb base head mode allow st :
  reconcile set_iter mb base head mode allow = Some st ->
  merge_kicad_3way set_iter mb base head mode allow
  = rebuild_from set_iter base st.1 st.2.
Proof. unfold merge_kicad_3way. intros ->. by destruct st. Qed.

Lemma not_positioned_not_in_base (base : option text) (k : key) :
  k ∉ block_keys (default skeleton base) ->
  has_key (snapshot (parse_top_blocks base)) k = false.
Proof.
  destruct base as [s|]; simpl.
  - rewrite block_keys_dom, <- has_key_dom. by destruct (has_key _ k).
  - intros _. apply has_key_false. apply lookup_empty.
Qed.

(** An orphan was decided for the proposed side, and [replace_map]
    holds its block of the proposed document. *)
Lemma orphan_content mb base head mode allow st k :
  reconcile set_iter mb base head mode allow = Some st ->
  k ∈ orphans set_iter (default skeleton base) st.1 ->
  exists c, snapshot (parse_top_blocks head) !! k = Some c /\ st.2 !! k = Some c.
Proof.
  intros Hst Hk. apply elem_of_orphans in Hk as [Hkeep Hpos].
  destruct (reconcile_inv _ _ _ _ _ _ Hst k) as [H1 H2].
  apply H1 in Hkeep. rewrite <- H2 in Hkeep. destruct Hkeep as [c Hc].
  exists c. split; [|done]. rewrite <- Hc, H2. unfold verdict.
  rewrite (not_positioned_not_in_base _ _ Hpos).
  destruct (has_key (snapshot (parse_top_blocks head)) k) eqn:HH; [done|].
  by apply has_key_false in HH.
Qed.

Lemma orphan_contents mb base head mode allow st :
  reconcile set_iter mb base head mode allow = Some st ->
  exists contents,
    mapM (fun k => st.2 !! k) (orphans set_iter (default skeleton base) st.1)
    = Some contents
    /\ Forall2 (fun k c => snapshot (parse_top_blocks head) !! k = Some c
                           /\ st.2 !! k = Some c)
               (orphans set_iter (default skeleton base) st.1) contents.
Proof.
  intros Hst.
  pose proof (fun k => orphan_content mb base head mode allow st k Hst) as Hc.
  induction (orphans set_iter (default skeleton base) st.1) as [|k os IH].
  { exists []. split; [done|constructor]. }
  destruct IH as (cs & Hm & Hf).
  { intros k' Hk'. apply Hc. by right. }
  destruct (Hc k (list_elem_of_here _ _)) as (c & Hc1 & Hc2).
  exists (c :: cs). split.
  - cbn [mapM]. rewrite Hc2. simpl. rewrite Hm. done.
  - by constructor.
Qed.

(** The merge always produces a document. *)
Lemma merge_kicad_3way_result mb base head mode allow :
  exists st contents,
    reconcile set_iter mb base head mode allow = Some st
    /\ Forall2 (fun k c => snapshot (parse_top_blocks head) !! k = Some c
                            /\ st.2 !! k = Some c)
                (orphans set_iter (default skeleton base) st.1) contents
    /\ merge_kicad_3way set_iter mb base head mode allow
       = Some (append_missing
                 (rstrip (rebuild_joined (default skeleton base) st.1 st.2))
                 contents).
Proof.
  destruct (reconcile_verdict set_iter set_iter_perm mb base head mode allow)
    as (st & Hst & _).
  destruct (orphan_contents _ _ _ _ _ _ Hst) as (cs & Hm & Hf).
  exists st, cs. split; [done|]. split; [done|].
  rewrite (merge_kicad_3way_eq _ _ _ _ _ _ Hst), rebuild_from_orphans.
  by rewrite Hm.
Qed.


(** C7.  Parsing an absent document gives no blocks and the empty
    snapshot; with the mainline document absent the rebuilder works on
    the fixed skeleton, no kept key has a position in it, and the merge
    returns the skeleton itself when nothing is kept and otherwise the
    skeleton with the kept blocks inserted before its closing
    delimiter. *)
Theorem C7_absent_documents :
  parse_top_blocks None = []
  /\ snapshot (parse_top_blocks None) = ∅
  /\ skeleton = txt "(kicad_sch (version 20211014) (generator merged)"
                ++ [LF] ++ txt ")"
  /\ (forall (keep : gset key) (replace : gmap key text),
        rebuild_from set_iter None keep replace
        = rebuild_from set_iter (Some skeleton) keep replace)
  /\ (forall mb head mode allow,
        exists st contents,
          reconcile set_iter mb None head mode allow = Some st
          /\ Forall2 (fun k c => st.2 !! k = Some c) (set_iter st.1) contents
          /\ merge_kicad_3way set_iter mb None head mode allow
             = Some (match contents with
                     | [] => skeleton
                     | _ :: _ =>
                         txt "(kicad_sch (version 20211014) (generator merged)"
                         ++ [LF] ++ [LF] ++ join [LF; LF] contents
                         ++ [LF] ++ txt ")"
                     end)).
Proof.
  split; [done|]. split; [done|]. split; [done|]. split; [done|].
  intros mb head mode allow.
  destruct (merge_kicad_3way_result mb None head mode allow)
    as (st & cs & Hst & Hf & Hm).
  exists st, cs. split; [done|].
  assert (Ho : orphans set_iter skeleton st.1 = set_iter st.1).
  { unfold orphans. rewrite block_keys_skeleton. apply filter_all.
    intros k _. apply not_elem_of_nil. }
  simpl in Hf, Hm. rewrite Ho in Hf. split.
  - eapply Forall2_impl; [exact Hf|]. by intros k c [_ ?].
  - rewrite Hm, rebuild_joined_skeleton, rstrip_skeleton.
    destruct cs as [|c cs]; [done|].
    unfold append_missing.
    replace (strip_close skeleton)
      with (txt "(kicad_sch (version 20211014) (generator merged)" ++ [LF])
      by (vm_compute; reflexivity).
    by rewrite <- !app_assoc.
Qed.

Lemma verdict_same (B : gmap key text) mode allow k :
  verdict B B B mode allow k = B !! k.
Proof.
  unfold verdict, choose_overlap.
  destruct (has_key B k) eqn:HB; [by case_bool_decide|].
  symmetry. by apply has_key_false.
Qed.

(** C3 (amended).  When ancestor, mainline and proposed are the same
    text, and no two recognised top-level blocks of that text share an
    ObjectKey while differing in content, the merge returns the text
    with its trailing whitespace stripped, for every overlap mode and
    either deletion setting. *)
Theorem C3_idempotence_consistent (T : text) (mode : text) (allow : bool) :
  consistent_keys T ->
  merge_kicad_3way set_iter (Some T) (Some T) (Some T) mode allow
  = Some (rstrip T).
Proof.
  intros Hcons.
  destruct (merge_kicad_3way_result (Some T) (Some T) (Some T) mode allow)
    as (st & cs & Hst & Hf & Hm).
  pose proof (reconcile_inv _ _ _ _ _ _ Hst) as Hk.
  simpl in Hf, Hm.
  assert (Hkeep : forall k, k ∈ block_keys T -> k ∈ st.1).
  { intros k Hin. apply Hk. rewrite verdict_same.
    by apply elem_of_dom, block_keys_dom. }
  assert (Ho : orphans set_iter T st.1 = []).
  { apply filter_none. intros k Hin Hno. apply Hno.
    apply (elem_of_set_iter set_iter set_iter_perm) in Hin.
    apply Hk in Hin. rewrite verdict_same in Hin.
    by apply block_keys_dom, elem_of_dom. }
  rewrite Ho in Hf. apply Forall2_nil_inv_l in Hf as ->.
  rewrite Hm. simpl. do 2 f_equal.
  rewrite rebuild_joined_eq. unfold rebuild_scan.
  apply (rebuild_fold_copy T st.1 st.2 0 _ ([], 0, ∅)).
  - apply find_loop_chained.
  - simpl. lia.
  - intros b Hb.
    assert (Hbk : block_key b ∈ block_keys T).
    { unfold block_keys. apply list_elem_of_fmap. eauto. }
    split; [by apply Hkeep|].
    destruct (Hk (block_key b)) as [_ ->]. rewrite verdict_same.
    apply Hkeep, Hk in Hbk. rewrite verdict_same in Hbk.
    destruct Hbk as [blk Hblk]. rewrite Hblk. f_equal.
    apply snapshot_lookup_Some in Hblk.
    assert (Hb' : forget_pos b ∈ parse_top_blocks (Some T)).
    { rewrite parse_top_blocks_find. apply list_elem_of_fmap. eauto. }
    destruct b as [[[[h u] st'] en] blk']. simpl in *.
    by apply (Hcons h u).
Qed.

End RebuildFacts.

(** ** The failure point *)

Lemma failure_loop_find f s pos p :
  failure_loop f s pos = Some p ->
  pos <= p /\ p < length s /\ s !! p = Some lparen /\ match_paren s p = None
  /\ Forall (fun b => block_end b <= p) (find_loop f s pos)
  /\ forall f', p - pos < f' -> find_loop f' (take p s) pos = find_loop f s pos.
Proof.
  revert pos. induction f as [|f IH]; intros pos; [done|].
  rewrite find_loop_S. simpl.
  destruct (next_paren s pos) as [q|] eqn:Hq; [|done].
  pose proof (next_paren_Some _ _ _ Hq) as (Hq1 & Hq2 & Hq3 & _).
  destruct (match_paren s q) as [e|] eqn:He.
  - intros Hf. destruct (IH _ Hf) as (H1 & H2 & H3 & H4 & H5 & H6).
    pose proof (match_paren_bounds _ _ _ He) as [He1 He2].
    split; [lia|]. split; [done|]. split; [done|]. split; [done|]. split.
    + apply Forall_app. split; [|done].
      destruct (in_head_tokens _); repeat constructor. simpl. lia.
    + intros [|f'] Hf'; [lia|]. rewrite find_loop_S.
      rewrite (next_paren_take_Some _ _ q) by (done || lia).
      rewrite (match_paren_take _ _ e) by done.
      rewrite (read_head_take _ _ e) by done.
      rewrite slice_take by done. f_equal. apply H6. lia.
  - intros [= <-]. split; [done|]. split; [done|]. split; [done|].
    split; [done|]. split; [constructor|].
    intros [|f'] Hf'; [lia|]. rewrite find_loop_S.
    by rewrite (next_paren_take_None _ _ q).
Qed.

Lemma failure_point_find s p :
  failure_point s = Some p ->
  p < length s /\ s !! p = Some lparen /\ match_paren s p = None
  /\ Forall (fun b => block_end b <= p) (find_blocks_with_pos s)
  /\ find_blocks_with_pos (take p s) = find_blocks_with_pos s.
Proof.
  intros Hf. apply failure_loop_find in Hf as (H1 & H2 & H3 & H4 & H5 & H6).
  split; [done|]. split; [done|]. split; [done|]. split; [done|].
  unfold find_blocks_with_pos at 1. apply H6. rewrite length_take. lia.
Qed.

Lemma rebuild_fold_take (s : text) (p : nat) (keep : gset key)
    (replace : gmap key text) (pos : nat)
    (bs : list (text * text * nat * nat * text)) (st0 : rebuild_state) :
  chained s pos bs -> Forall (fun b => block_end b <= p) bs ->
  foldl (rebuild_step (take p s) keep replace) st0 bs
  = foldl (rebuild_step s keep replace) st0 bs.
Proof.
  intros Hch. revert st0.
  induction Hch as [pos|pos h st en rest H1 H2 H3 Hh Hch IH];
    intros [[out last] present] Hall; [done|].
  apply Forall_cons in Hall as [Hen Hall]. simpl in Hen.
  cbn [foldl]. rewrite <- IH by done. f_equal.
  unfold rebuild_step. rewrite slice_take by lia. done.
Qed.

Lemma rebuild_fold_last (s : text) (p : nat) (keep : gset key)
    (replace : gmap key text)
    (bs : list (text * text * nat * nat * text)) (st0 : rebuild_state) :
  Forall (fun b => block_end b <= p) bs -> st0.1.2 <= p ->
  (foldl (rebuild_step s keep replace) st0 bs).1.2 <= p.
Proof.
  revert st0. induction bs as [|b bs IH]; intros [[out last] present] Hall H0;
    [done|].
  apply Forall_cons in Hall as [Hen Hall]. cbn [foldl]. apply IH; [done|].
  destruct b as [[[[h u] st] en] blk]. unfold rebuild_step. simpl in *.
  by case_bool_decide.
Qed.

(** From the failure point on, the rebuilder's loop copies the text. *)
Lemma rebuild_joined_failure (s : text) (p : nat) (keep : gset key)
    (replace : gmap key text) :
  failure_point s = Some p ->
  rebuild_joined s keep replace
  = rebuild_joined (take p s) keep replace ++ drop p s.
Proof.
  intros Hf. apply failure_point_find in Hf as (H1 & H2 & H3 & H4 & H5).
  rewrite !rebuild_joined_eq. unfold rebuild_scan. rewrite H5.
  rewrite (rebuild_fold_take s p keep replace 0)
    by (done || apply find_loop_chained).
  rewrite <- app_assoc. f_equal.
  rewrite drop_take_drop; [done|].
  apply rebuild_fold_last; [done|simpl; lia].
Qed.

(** The keys with a position are those of the text before the failure. *)
Lemma block_keys_failure s p :
  failure_point s = Some p -> block_keys (take p s) = block_keys s.
Proof.
  intros Hf. apply failure_point_find in Hf as (_ & _ & _ & _ & H5).
  unfold block_keys. by rewrite H5.
Qed.

Section FailureFacts.

Variable set_iter : gset key -> list key.
Hypothesis set_iter_perm : forall X, set_iter X ≡ₚ elements X.

(** C6 (amended).  When the scan reaches an opening delimiter that has
    no match (unbalanced delimiters or an unterminated string
    literal), it stops there: the blocks returned are exactly those of
    the text before that point, none reaches beyond it, and the
    rebuilder's loop copies the text from that point on after what it
    rebuilds from the text before it.  The final steps of the
    rebuilder then apply to that copy: its trailing whitespace is
    trimmed, and when orphans are appended a closing delimiter at its
    end is removed and the orphans, a line feed and a closing
    delimiter follow. *)
Theorem C6_scan_stops_at_failure (s : text) (p : nat) :
  failure_point s = Some p ->
  s !! p = Some lparen /\ match_paren s p = None
  /\ parse_top_blocks (Some s) = parse_top_blocks (Some (take p s))
  /\ find_blocks_with_pos s = find_blocks_with_pos (take p s)
  /\ Forall (fun b => block_end b <= p) (find_blocks_with_pos s)
  /\ forall (keep : gset key) (replace : gmap key text),
      rebuild_joined s keep replace
      = rebuild_joined (take p s) keep replace ++ drop p s
      /\ rebuild_from set_iter (Some s) keep replace
         = (missing ← mapM (fun k => replace !! k) (orphans set_iter s keep);
            Some (rebuild_joined (take p s) keep replace
                  ++ append_missing (rstrip (drop p s)) missing)).
Proof.
  intros Hf.
  pose proof (failure_point_find _ _ Hf) as (H1 & H2 & H3 & H4 & H5).
  split; [done|]. split; [done|].
  split; [by rewrite !parse_top_blocks_find, H5|].
  split; [done|]. split; [done|].
  intros keep replace. split; [by apply rebuild_joined_failure|].
  rewrite (rebuild_from_orphans set_iter set_iter_perm). simpl.
  rewrite (rebuild_joined_failure s p) by done.
  assert (Hin : lparen ∈ drop p s).
  { apply list_elem_of_lookup. exists 0. rewrite lookup_drop.
    by replace (p + 0) with p by lia. }
  rewrite (rstrip_app _ _ lparen) by done.
  destruct (mapM _ _) as [missing|]; simpl; [|done].
  rewrite append_missing_app; [done|].
  by apply (rstrip_nonempty _ lparen).
Qed.

End FailureFacts.

(** ** The identity resolver *)

Lemma strip_prefix_Some p l r : strip_prefix p l = Some r <-> l = p ++ r.
Proof.
  revert l. induction p as [|a p IH]; intros l; simpl.
  { destruct l; split; congruence. }
  destruct l as [|b l]; [split; congruence|].
  case_bool_decide as Hab.
  - subst. rewrite IH. split; congruence.
  - split; congruence.
Qed.

Lemma span_len_all p (a b : text) :
  Forall (fun c => p c = true) a ->
  match b with c :: _ => p c = false | [] => True end ->
  span_len p (a ++ b) = length a.
Proof.
  intros Ha Hb. induction Ha as [|c a Hc Ha IH]; simpl.
  - destruct b as [|c b]; simpl; [done|]. by rewrite Hb.
  - by rewrite Hc, IH.
Qed.

Lemma span_len_Forall p (l : text) :
  Forall (fun c => p c = true) (take (span_len p l) l).
Proof.
  induction l as [|c l IH]; simpl; [constructor|].
  destruct (p c) eqn:Hc; simpl; [|constructor]. by constructor.
Qed.

Lemma hex_not_space c : Chr.is_hex_or_hyphen c = true -> Chr.isspace c = false.
Proof. destruct c as [[] [] [] [] [] [] [] []]; vm_compute; congruence. Qed.

(** The anchored matcher accepts exactly the language of the pattern. *)
Lemma uuid_match_here_spec l tok :
  uuid_match_here l = Some tok <-> uuid_field_at l 0 tok.
Proof.
  unfold uuid_match_here, uuid_field_at. split.
  - destruct (strip_prefix (txt "(uuid") l) as [r|] eqn:Hr; [|done].
    apply strip_prefix_Some in Hr.
    destruct (span_len Chr.isspace r =? 0) eqn:Hws; [done|].
    destruct (span_len Chr.is_hex_or_hyphen (drop (span_len Chr.isspace r) r) <? 8)
      eqn:Hm; [done|]. simpl.
    apply Nat.eqb_neq in Hws. apply Nat.ltb_ge in Hm.
    set (ws := span_len Chr.isspace r) in *.
    set (m := span_len Chr.is_hex_or_hyphen (drop ws r)) in *.
    destruct (drop m (drop ws r)) as [|c post] eqn:Hpost; [done|].
    case_bool_decide as Hc; [|done]. intros [= <-].
    exists (take ws r), post. split; [lia|]. split.
    { rewrite drop_0, Hr. f_equal. rewrite <- Hc, <- Hpost.
      by rewrite !take_drop. }
    split.
    { intros Hnil. apply (f_equal length) in Hnil.
      rewrite length_take in Hnil. simpl in Hnil.
      pose proof (span_len_le Chr.isspace r). lia. }
    split; [apply span_len_Forall|]. split; [apply span_len_Forall|].
    rewrite length_take. pose proof (span_len_le Chr.is_hex_or_hyphen (drop ws r)).
    lia.
  - intros (ws & post & _ & Hl & Hws & Hsp & Hhex & Hlen).
    rewrite drop_0 in Hl.
    apply strip_prefix_Some in Hl. rewrite Hl.
    destruct tok as [|t tok]; [simpl in Hlen; lia|].
    assert (Hs : span_len Chr.isspace (ws ++ (t :: tok) ++ [rparen] ++ post)
                 = length ws).
    { apply span_len_all; [done|]. simpl. apply hex_not_space.
      by apply Forall_cons in Hhex as [? _]. }
    rewrite Hs, drop_app_length.
    assert (Hh : span_len Chr.is_hex_or_hyphen ((t :: tok) ++ [rparen] ++ post)
                 = length (t :: tok)).
    { by apply span_len_all. }
    rewrite Hh, drop_app_length, take_app_length.
    destruct ws as [|w ws]; [done|]. simpl length.
    replace (S (length ws) =? 0) with false by done.
    replace (S (length tok) <? 8) with false
      by (symmetry; apply Nat.ltb_ge; simpl in Hlen; lia).
    simpl. done.
Qed.

Lemma uuid_field_at_drop block i tok :
  i <= length block ->
  uuid_field_at block i tok <-> uuid_field_at (drop i block) 0 tok.
Proof.
  intros Hi. unfold uuid_field_at. rewrite drop_0.
  split; intros (ws & post & H1 & H2); exists ws, post; (split; [lia|done]).
Qed.

Lemma re_search_uuid_first block i tok :
  first_uuid_field block i tok -> re_search_uuid block = Some tok.
Proof.
  revert i. induction block as [|c block IH]; intros i [Hf Hno].
  - destruct Hf as (ws & post & Hi & Hd & _). simpl in Hi.
    assert (i = 0) as -> by lia. simpl in Hd. discriminate.
  - destruct i as [|i].
    + apply uuid_match_here_spec in Hf. unfold re_search_uuid.
      fold re_search_uuid. by rewrite Hf.
    + assert (Hn : uuid_match_here (c :: block) = None).
      { destruct (uuid_match_here (c :: block)) as [g|] eqn:Hg; [|done].
        apply uuid_match_here_spec in Hg. destruct (Hno 0 g); [lia|done]. }
      unfold re_search_uuid. fold re_search_uuid. rewrite Hn.
      apply (IH i). split.
      * destruct Hf as (ws & post & Hi & Hd & Hrest).
        exists ws, post. simpl in Hi, Hd. split; [lia|done].
      * intros j tok' Hj (ws & post & Hi & Hd & Hrest).
        apply (Hno (S j) tok'); [lia|].
        exists ws, post. simpl. split; [lia|done].
Qed.

Lemma re_search_uuid_None block :
  ~ has_uuid_field block -> re_search_uuid block = None.
Proof.
  induction block as [|c block IH]; intros Hno.
  - simpl. destruct (uuid_match_here []) as [g|] eqn:Hg; [|done].
    apply uuid_match_here_spec in Hg. destruct Hno. by exists 0, g.
  - unfold re_search_uuid. fold re_search_uuid.
    destruct (uuid_match_here (c :: block)) as [g|] eqn:Hg.
    + apply uuid_match_here_spec in Hg. destruct Hno. by exists 0, g.
    + apply IH. intros (i & tok & ws & post & Hi & Hd & Hrest).
      apply Hno. exists (S i), tok, ws, post. simpl. split; [lia|done].
Qed.

(** *** Digests collide

    A digest has 40 characters, so there are at most [256 ^ 40] of them,
    fewer than the [2 ^ 321] blocks [bits_block l] with [l] of length
    321: two different blocks without identifier field share their
    identity. *)

Lemma ascii_bits_inj c d : ascii_bits c = ascii_bits d -> c = d.
Proof. destruct c, d. simpl. congruence. Qed.

Lemma map_ascii_bits_inj (s t : text) :
  map ascii_bits s = map ascii_bits t -> s = t.
Proof.
  revert t. induction s as [|c s IH]; intros [|d t]; simpl; try done.
  intros [= Hc Hs]. f_equal; [by apply ascii_bits_inj|by apply IH].
Qed.

Lemma bits_block_inj l1 l2 : bits_block l1 = bits_block l2 -> l1 = l2.
Proof.
  unfold bits_block. intros H. apply app_inv_head in H.
  apply app_inj_tail in H as [H _].
  revert l2 H. induction l1 as [|a l1 IH]; intros [|b l2]; simpl; try done.
  intros [= Hab H]. f_equal; [|by apply IH].
  destruct a, b; done.
Qed.

Lemma drop_head_elem {A} (l : list A) i c r : drop i l = c :: r -> c ∈ l.
Proof.
  intros Hd. apply list_elem_of_lookup. exists i.
  rewrite <- (Nat.add_0_r i), <- lookup_drop, Hd. done.
Qed.

Lemma bits_block_untagged l : ~ has_uuid_field (bits_block l).
Proof.
  intros (i & tok & ws & post & _ & Hd & _).
  destruct i as [|i]; [discriminate Hd|].
  unfold bits_block in Hd. simpl in Hd.
  apply drop_head_elem in Hd. change (txt ")") with [rparen] in Hd.
  change ("w" :: "i" :: "r" :: "e" :: " " :: ?x)%char with (txt "wire " ++ x) in Hd.
  rewrite !elem_of_app in Hd. destruct Hd as [Hin|[Hin|Hin]].
  - vm_compute in Hin.
    repeat (apply elem_of_cons in Hin as [Hin|Hin]; [discriminate|]).
    by apply elem_of_nil in Hin.
  - apply list_elem_of_fmap in Hin as ([] & Hb & _); discriminate.
  - apply list_elem_of_singleton in Hin. discriminate.
Qed.

Lemma hexdigest_length s : length (Sha1.hexdigest s) = 40.
Proof.
  unfold Sha1.hexdigest, Sha1.digest.
  destruct (Sha1.blocks _ _ _) as [[[[h0 h1] h2] h3] h4]. reflexivity.
Qed.

Lemma octet_card : card octet = 256.
Proof. vm_compute. reflexivity. Qed.

Lemma digest_space_smaller : 256 ^ 40 < 2 ^ 321.
Proof.
  change (256 ^ 40) with ((2 ^ 8) ^ 40).
  rewrite <- Nat.pow_mul_r. apply Nat.pow_lt_mono_r; lia.
Qed.

Lemma untagged_identity_collides :
  exists b1 b2,
    ~ has_uuid_field b1 /\ ~ has_uuid_field b2 /\ b1 <> b2
    /\ identity b1 = identity b2.
Proof.
  pose (f := fun x : { l : list bool | length l = 321 } =>
               exist (fun l : list octet => length l = 40)
                     (map ascii_bits (Sha1.hexdigest (bits_block (proj1_sig x))))
                     (eq_trans (length_map _ _) (hexdigest_length _))).
  destruct (finite_pigeonhole f) as ([l1 H1] & [l2 H2] & Hne & Heq).
  { rewrite !list_card, bool_card, octet_card. apply digest_space_smaller. }
  exists (bits_block l1), (bits_block l2).
  split; [apply bits_block_untagged|]. split; [apply bits_block_untagged|].
  split.
  - intros Hb. apply bits_block_inj in Hb. subst. apply Hne.
    f_equal. apply proof_irrel.
  - apply (f_equal (@proj1_sig _ _)) in Heq. simpl in Heq.
    apply map_ascii_bits_inj in Heq. unfold identity.
    by rewrite !re_search_uuid_None by apply bits_block_untagged.
Qed.

(** C4 (amended).  A block whose leftmost well-formed unique-identifier
    field carries the token [tok] gets [tok] in lower case as identity,
    so two blocks whose leftmost fields carry the same token up to
    letter case get the same identity whatever else they contain; a
    block without such a field gets the hexadecimal SHA-1 digest of the
    UTF-8 encoding of its exact text. *)
Theorem C4_identity_resolver :
  (forall block i tok,
      first_uuid_field block i tok -> identity block = lower tok)
  /\ (forall block1 i1 tok1 block2 i2 tok2,
        first_uuid_field block1 i1 tok1 -> first_uuid_field block2 i2 tok2 ->
        lower tok1 = lower tok2 -> identity block1 = identity block2)
  /\ (forall block,
        ~ has_uuid_field block -> identity block = Sha1.hexdigest block).
Proof.
  assert (H1 : forall block i tok,
             first_uuid_field block i tok -> identity block = lower tok).
  { intros block i tok Hf. unfold identity.
    by rewrite (re_search_uuid_first _ _ _ Hf). }
  split; [done|]. split.
  - intros b1 i1 t1 b2 i2 t2 Hf1 Hf2 Heq.
    by rewrite (H1 _ _ _ Hf1), (H1 _ _ _ Hf2).
  - intros block Hno. unfold identity.
    by rewrite (re_search_uuid_None _ Hno).
Qed.

(** ** The record union *)

Lemma latest_snoc k recs k' ls :
  latest k (recs ++ [(k', ls)])
  = if decide (k' = k) then Some ls else latest k recs.
Proof.
  induction recs as [|[k0 l0] recs IH]; simpl.
  - by destruct (decide (k' = k)).
  - rewrite IH. destruct (decide (k' = k)); [done|].
    by destruct (latest k recs).
Qed.

Lemma latest_app k r1 r2 :
  latest k (r1 ++ r2)
  = match latest k r2 with Some l => Some l | None => latest k r1 end.
Proof.
  induction r1 as [|[k0 l0] r1 IH]; simpl.
  - by destruct (latest k r2).
  - rewrite IH. by destruct (latest k r2).
Qed.

Lemma latest_is_Some k recs : is_Some (latest k recs) <-> k ∈ map fst recs.
Proof.
  induction recs as [|[k0 l0] recs IH]; simpl.
  - rewrite elem_of_nil. split; [by intros [? ?]|done].
  - rewrite elem_of_cons, <- IH. destruct (latest k recs) as [l|].
    + split; eauto.
    + destruct (decide (k0 = k)) as [->|Hne].
      * split; eauto.
      * split; [by intros [? ?]|]. intros [->|[? ?]]; done.
Qed.

Lemma latest_elem k recs ls : latest k recs = Some ls -> (k, ls) ∈ recs.
Proof.
  induction recs as [|[k0 l0] recs IH]; simpl; [done|].
  destruct (latest k recs) as [l|].
  - intros [= ->]. right. by apply IH.
  - destruct (decide (k0 = k)) as [->|]; [|done]. intros [= ->]. by left.
Qed.

Lemma union_ok_fold recs : union_ok recs (foldl add_block (∅, []) recs).
Proof.
  induction recs as [|[k ls] recs IH] using rev_ind.
  { repeat split; simpl.
    - constructor.
    - done.
    - done.
    - intros i j k1 k2 Hi. done. }
  rewrite foldl_app. simpl.
  destruct (foldl add_block (∅, []) recs) as [out order].
  destruct IH as (Hnd & Hin & Hout & Hord). simpl in *.
  assert (Hseen : has_key out k = true <-> k ∈ order).
  { rewrite has_key_true, Hout, latest_is_Some, Hin. done. }
  repeat split; simpl.
  - destruct (has_key out k) eqn:Hk; [done|].
    apply NoDup_app. split; [done|]. split; [|apply NoDup_singleton].
    intros x Hx Hx'. apply list_elem_of_singleton in Hx' as ->.
    apply Hseen in Hx. congruence.
  - rewrite map_app, elem_of_app. simpl. rewrite list_elem_of_singleton.
    destruct (has_key out k) eqn:Hk.
    + rewrite Hin. tauto.
    + rewrite elem_of_app, list_elem_of_singleton, Hin. tauto.
  - rewrite map_app, elem_of_app. simpl. rewrite list_elem_of_singleton.
    destruct (has_key out k) eqn:Hk.
    + rewrite <- Hin. intros [? | ->]; [done|]. by apply Hseen.
    + rewrite elem_of_app, list_elem_of_singleton, Hin. tauto.
  - intros k0. rewrite latest_snoc. destruct (decide (k = k0)) as [->|Hne].
    + by rewrite lookup_insert_eq.
    + by rewrite lookup_insert_ne.
  - rewrite map_app. simpl. intros i j k1 k2 Hi Hj Hij.
    assert (Hold : forall i j k1 k2,
               order !! i = Some k1 -> order !! j = Some k2 -> i < j ->
               exists n, (map fst recs ++ [k]) !! n = Some k1
                         /\ forall m, m <= n -> (map fst recs ++ [k]) !! m <> Some k2).
    { intros i' j' a b Ha Hb Hlt.
      destruct (Hord i' j' a b Ha Hb Hlt) as (n & Hn1 & Hn2).
      pose proof (lookup_lt_Some _ _ _ Hn1) as Hlen.
      exists n. split; [by rewrite lookup_app_l|].
      intros m Hm. rewrite lookup_app_l by lia. by apply Hn2. }
    destruct (has_key out k) eqn:Hk; [by eapply Hold|].
    destruct (decide (j < length order)) as [Hj'|Hj'].
    + rewrite lookup_app_l in Hi by lia. rewrite lookup_app_l in Hj by lia.
      by eapply Hold.
    + assert (i < length order).
      { apply lookup_lt_Some in Hj. rewrite length_app in Hj. simpl in Hj. lia. }
      rewrite lookup_app_l in Hi by lia.
      rewrite lookup_app_r in Hj by lia.
      destruct (j - length order) as [|?] eqn:Hjo; [|done].
      injection Hj as <-.
      assert (Hk1 : k1 ∈ map fst recs).
      { apply Hin. by eapply list_elem_of_lookup_2. }
      apply list_elem_of_lookup in Hk1 as [n Hn].
      pose proof (lookup_lt_Some _ _ _ Hn) as Hlen.
      exists n. split; [by rewrite lookup_app_l|].
      intros m Hm. rewrite lookup_app_l by lia. intros Hm'.
      assert (k ∈ order) by (apply Hin; by eapply list_elem_of_lookup_2).
      apply Hseen in H0. congruence.
Qed.

Lemma fp_info_union_fold mb base head :
  fp_info_union mb base head
  = foldl add_block (∅, []) (all_records mb base head).
Proof.
  unfold fp_info_union, add_blocks, all_records. by rewrite !foldl_app.
Qed.

(** C8.  The union processes the records of the ancestor, then of the
    mainline, then of the proposed document.  The output order has
    every key once, at the place of its first occurrence; the lines
    stored for a key are those of its last occurrence, so the proposed
    document's version wins over the mainline's and the mainline's over
    the ancestor's; and the merged text is the stored records' lines in
    output order, joined by line feeds and followed by one. *)
Theorem C8_record_union_precedence mb base head :
  exists out order stored,
    fp_info_union mb base head = (out, order)
    /\ NoDup order
    /\ (forall k, k ∈ order <-> k ∈ map fst (all_records mb base head))
    /\ first_seen_order (map fst (all_records mb base head)) order
    /\ (forall k,
          out !! k =
          match latest k (parse_info_blocks (Some (or_empty head))) with
          | Some l => Some l
          | None =>
              match latest k (parse_info_blocks (Some (or_empty base))) with
              | Some l => Some l
              | None => latest k (parse_info_blocks (Some (or_empty mb)))
              end
          end)
    /\ Forall2 (fun k ls => out !! k = Some ls) order stored
    /\ merge_fp_info_3way mb base head
       = Some (join [LF] (concat stored) ++ [LF]).
Proof.
  pose proof (union_ok_fold (all_records mb base head)) as Hok.
  rewrite <- fp_info_union_fold in Hok.
  unfold merge_fp_info_3way.
  destruct (fp_info_union mb base head) as [out order].
  destruct Hok as (Hnd & Hin & Hout & Hord). cbn [fst snd] in *.
  assert (Hs : is_Some (mapM (fun key => out !! key) order)).
  { apply mapM_is_Some. apply Forall_forall. intros k Hk. simpl.
    rewrite Hout. apply latest_is_Some. by apply Hin. }
  destruct Hs as [stored Hst].
  exists out, order, stored. split; [done|]. split; [done|].
  split; [done|]. split; [done|]. split.
  - intros k. rewrite Hout. unfold all_records. rewrite !latest_app.
    destruct (latest k (parse_info_blocks (Some (or_empty head)))); [done|].
    by destruct (latest k (parse_info_blocks (Some (or_empty base)))).
  - split; [by apply mapM_Some|]. by rewrite Hst.
Qed.

(** ** The cache parser *)

Lemma inner_loop_ge ls j : j <= inner_loop ls j.
Proof.
  revert j. induction ls as [|a ls IH]; intros j; simpl; [lia|].
  destruct ls as [|b ls]; [lia|].
  destruct (is_category_line a && is_category_line b); [lia|].
  specialize (IH (j + 1)). lia.
Qed.

(** The outer loop of [parse_info_blocks] never runs out of fuel. *)
Lemma info_loop_fuel f1 f2 lines i :
  length lines - i <= f1 -> length lines - i <= f2 ->
  info_loop f1 lines i = info_loop f2 lines i.
Proof.
  revert f2 i. induction f1 as [|f1 IH]; intros f2 i H1 H2.
  { destruct f2 as [|f2]; [done|]. simpl.
    destruct (i + 1 <? length lines) eqn:Hi; [|done].
    apply Nat.ltb_lt in Hi. lia. }
  destruct f2 as [|f2].
  { simpl. destruct (i + 1 <? length lines) eqn:Hi; [|done].
    apply Nat.ltb_lt in Hi. lia. }
  simpl. destruct (i + 1 <? length lines) eqn:Hi; [|done].
  apply Nat.ltb_lt in Hi.
  destruct (is_category_line (nth i lines []) && is_category_line (nth (i + 1) lines [])).
  - f_equal. pose proof (inner_loop_ge (drop (i + 2) lines) (i + 2)).
    apply IH; lia.
  - apply IH; lia.
Qed.

Lemma info_loop_S f lines i :
  info_loop (S f) lines i =
    if i + 1 <? length lines then
      if is_category_line (nth i lines []) && is_category_line (nth (i + 1) lines [])
      then ((strip (nth i lines []), strip (nth (i + 1) lines [])),
            slice lines i (inner_loop (drop (i + 2) lines) (i + 2)))
           :: info_loop f lines (inner_loop (drop (i + 2) lines) (i + 2))
      else info_loop f lines (i + 1)
    else [].
Proof. reflexivity. Qed.

(** The loop equation of [parse_info_blocks], with the same fuel on both
    sides. *)
Lemma info_loop_unfold f lines i :
  length lines - i <= f ->
  info_loop f lines i =
    if i + 1 <? length lines then
      if is_category_line (nth i lines []) && is_category_line (nth (i + 1) lines [])
      then ((strip (nth i lines []), strip (nth (i + 1) lines [])),
            slice lines i (inner_loop (drop (i + 2) lines) (i + 2)))
           :: info_loop f lines (inner_loop (drop (i + 2) lines) (i + 2))
      else info_loop f lines (i + 1)
    else [].
Proof.
  intros Hf. destruct f as [|f].
  { simpl. destruct (i + 1 <? length lines) eqn:Hi; [|done].
    apply Nat.ltb_lt in Hi. lia. }
  rewrite info_loop_S. destruct (i + 1 <? length lines) eqn:Hi; [|done].
  apply Nat.ltb_lt in Hi.
  destruct (is_category_line (nth i lines []) && is_category_line (nth (i + 1) lines [])).
  - f_equal. pose proof (inner_loop_ge (drop (i + 2) lines) (i + 2)).
    apply info_loop_fuel; lia.
  - apply info_loop_fuel; lia.
Qed.

Lemma inner_loop_no_pair ls j :
  has_header_pair ls = false -> inner_loop ls j = j + (length ls - 1).
Proof.
  revert j. induction ls as [|a ls IH]; intros j Hno; [simpl; lia|].
  destruct ls as [|b ls]; [simpl; lia|].
  change (inner_loop (a :: b :: ls) j)
    with (if is_category_line a && is_category_line b then j
          else inner_loop (b :: ls) (j + 1)).
  change (has_header_pair (a :: b :: ls))
    with ((is_category_line a && is_category_line b) || has_header_pair (b :: ls))
    in Hno.
  destruct (is_category_line a && is_category_line b); [done|].
  rewrite IH by done. cbn [length]. lia.
Qed.

(** Whenever the last record of a document has a body, it stops one
    line short of the end of the document. *)
Lemma final_record_misses_last_line a b rest :
  is_category_line a = true -> is_category_line b = true ->
  rest <> [] -> has_header_pair rest = false ->
  parse_info_lines (a :: b :: rest)
  = [((strip a, strip b), take (length rest + 1) (a :: b :: rest))].
Proof.
  intros Ha Hb Hrest Hno. unfold parse_info_lines.
  rewrite info_loop_unfold by lia.
  destruct rest as [|r rest]; [done|].
  cbn [length Nat.add Nat.ltb Nat.leb nth]. rewrite Ha, Hb.
  cbn [andb drop]. rewrite (inner_loop_no_pair _ _ Hno).
  cbn [length]. f_equal.
  - f_equal. unfold slice. rewrite drop_0. f_equal. lia.
  - rewrite info_loop_unfold by (cbn [length]; lia).
    cbn [length].
    destruct (_ <? _) eqn:Hlt; [|done].
    apply Nat.ltb_lt in Hlt. lia.
Qed.

(** C9 (the code at the failing input).  The document has four lines,
    the first two are header candidates and no later pair is, yet the
    only record stops before the last line. *)
Theorem C9_last_line_dropped :
  splitlines cache_doc
  = map txt ["Resistor_SMD"; "R_0603"; "0603 resistor"; "2"]%string
  /\ parse_info_blocks (Some cache_doc)
     = [((txt "Resistor_SMD", txt "R_0603"),
         map txt ["Resistor_SMD"; "R_0603"; "0603 resistor"]%string)].
Proof. split; vm_compute; reflexivity. Qed.

Lemma begins_http_startswith s :
  begins_http_any_case s -> startswith (txt "http") (lower s) = true.
Proof.
  intros (c1 & c2 & c3 & c4 & rest & -> & H1 & H2 & H3 & H4).
  destruct H1 as [-> | ->], H2 as [-> | ->], H3 as [-> | ->], H4 as [-> | ->];
    reflexivity.
Qed.

Lemma is_category_line_no_http line :
  is_category_line line = true -> ~ begins_http_any_case (strip line).
Proof.
  unfold is_category_line. intros Hc Hb.
  apply begins_http_startswith in Hb. rewrite Hb in Hc.
  by repeat case_bool_decide.
Qed.

Example httpd_is_no_header : is_category_line (txt "httpd") = false.
Proof. vm_compute. reflexivity. Qed.

Lemma info_loop_keys fuel lines i r :
  r ∈ info_loop fuel lines i ->
  exists a b,
    r.1 = (strip a, strip b)
    /\ is_category_line a = true /\ is_category_line b = true.
Proof.
  revert i. induction fuel as [|fuel IH]; intros i; simpl.
  { intros Hr. by apply elem_of_nil in Hr. }
  destruct (i + 1 <? length lines); [|intros Hr; by apply elem_of_nil in Hr].
  destruct (is_category_line (nth i lines [])) eqn:Ha;
    destruct (is_category_line (nth (i + 1) lines [])) eqn:Hb; simpl;
    try apply IH.
  intros Hr. apply elem_of_cons in Hr as [-> | Hr]; [|by eapply IH].
  eauto.
Qed.

(** C10.  A line whose stripped text begins with [http] in any letter
    case is never a header candidate, also when it is made of
    identifier characters only, as [httpd] is; so neither component of
    a record key begins with [http] in any letter case. *)
Theorem C10_http_lines_are_no_headers :
  (forall line,
      begins_http_any_case (strip line) -> is_category_line line = false)
  /\ is_category_line (txt "httpd") = false
  /\ (forall doc cat name lines,
        ((cat, name), lines) ∈ parse_info_blocks doc ->
        ~ begins_http_any_case cat /\ ~ begins_http_any_case name).
Proof.
  split.
  { intros line Hb. destruct (is_category_line line) eqn:Hc; [|done].
    by apply is_category_line_no_http in Hc. }
  split; [apply httpd_is_no_header|].
  intros [s|] cat name lines Hr; simpl in Hr.
  - apply info_loop_keys in Hr as (a & b & [= -> ->] & Ha & Hb).
    split; by apply is_category_line_no_http.
  - by apply elem_of_nil in Hr.
Qed.

(** * Instances *)

Lemma elements_perm (X : gset key) : elements X ≡ₚ elements X.
Proof. reflexivity. Defined.

Lemma C1_classification_table_witness :
  exists st d,
    reconcile elements (Some wire_a1) (Some wire_a2) None
              (mode_of prefer_proposed) false = Some st
    /\ classification
         (has_key (snapshot (parse_top_blocks (Some wire_a1))) key_a)
         (has_key (snapshot (parse_top_blocks (Some wire_a2))) key_a)
         (has_key (snapshot (parse_top_blocks None)) key_a)
         prefer_proposed false = Some d
    /\ decided d (snapshot (parse_top_blocks (Some wire_a2)))
                 (snapshot (parse_top_blocks None)) st key_a.
Proof.
  apply (C1_classification_table elements elements_perm).
  apply (bool_decide_unpack _). vm_compute. exact I.
Defined.

Lemma C2_new_work_is_kept_witness :
  exists st,
    reconcile elements (Some wire_a1) (Some (wire_a1 ++ wire_b)) None
              (txt "prefer-base") true = Some st
    /\ key_b ∈ st.1.
Proof.
  apply (C2_new_work_is_kept elements elements_perm).
  - apply (bool_decide_unpack _). vm_compute. exact I.
  - apply (bool_decide_unpack _). vm_compute. exact I.
Defined.

(** Distinct keys make a text consistent. *)
Lemma consistent_keys_NoDup s :
  NoDup (map (fun b : text * text * text => (b.1.1, b.1.2))
             (parse_top_blocks (Some s))) ->
  consistent_keys s.
Proof.
  unfold consistent_keys.
  induction (parse_top_blocks (Some s)) as [|[[h0 u0] b0] l IH];
    intros Hnd h u b1 b2 H1 H2.
  { by apply elem_of_nil in H1. }
  simpl in Hnd. apply NoDup_cons in Hnd as [Hnot Hnd].
  assert (Hk : forall b, (h0, u0, b) ∈ l -> False).
  { intros b Hb. apply Hnot. apply list_elem_of_fmap.
    by exists (h0, u0, b). }
  apply elem_of_cons in H1 as [Heq1|H1];
    apply elem_of_cons in H2 as [Heq2|H2].
  - congruence.
  - injection Heq1 as -> -> ->. by destruct (Hk _ H2).
  - injection Heq2 as -> -> ->. by destruct (Hk _ H1).
  - by apply (IH Hnd h u).
Defined.

Lemma C3_idempotence_consistent_witness :
  merge_kicad_3way elements (Some two_wires) (Some two_wires) (Some two_wires)
                   (txt "prefer-base") true
  = Some (rstrip two_wires).
Proof.
  apply (C3_idempotence_consistent elements elements_perm).
  apply consistent_keys_NoDup.
  apply (bool_decide_unpack _). vm_compute. exact I.
Defined.

(** C3 as stated fails: the second block's content replaces the first. *)
Lemma C3_counterexample :
  merge_kicad_3way elements (Some twice_a) (Some twice_a) (Some twice_a)
                   (txt "prefer-head") false
  = Some (wire_a2 ++ wire_a2)
  /\ merge_kicad_3way elements (Some twice_a) (Some twice_a) (Some twice_a)
                      (txt "prefer-head") false
     <> Some (rstrip twice_a).
Proof. split; [vm_compute; reflexivity|vm_compute; discriminate]. Qed.

Lemma uuid_field_wire_ab_first : first_uuid_field wire_ab 6 (txt "aaaaaaaa").
Proof.
  split.
  - exists [space], (txt " (uuid bbbbbbbb))").
    split; [simpl; lia|]. split; [reflexivity|]. split; [discriminate|].
    split; [repeat constructor|]. split; [repeat constructor|simpl; lia].
  - intros j tok Hj (ws & post & _ & Hd & _).
    do 6 (destruct j as [|j]; [vm_compute in Hd; discriminate|]). lia.
Defined.

Lemma C4_identity_resolver_witness : identity wire_ab = lower (txt "aaaaaaaa").
Proof.
  apply (proj1 C4_identity_resolver wire_ab 6).
  apply uuid_field_wire_ab_first.
Defined.

(** C4 as stated fails: a block holds a well-formed field whose token is
    not its identity, two blocks holding the same token differ in
    identity, and two different blocks without a field share one. *)
Lemma C4_counterexample :
  uuid_field_at wire_ab 22 (txt "bbbbbbbb")
  /\ uuid_field_at wire_b 6 (txt "bbbbbbbb")
  /\ identity wire_ab <> lower (txt "bbbbbbbb")
  /\ identity wire_ab <> identity wire_b
  /\ exists b1 b2,
       ~ has_uuid_field b1 /\ ~ has_uuid_field b2 /\ b1 <> b2
       /\ identity b1 = identity b2.
Proof.
  split.
  { exists [space], (txt ")").
    split; [simpl; lia|]. split; [reflexivity|]. split; [discriminate|].
    split; [repeat constructor|]. split; [repeat constructor|simpl; lia]. }
  split.
  { exists [space], (txt ")").
    split; [simpl; lia|]. split; [reflexivity|]. split; [discriminate|].
    split; [repeat constructor|]. split; [repeat constructor|simpl; lia]. }
  split; [vm_compute; discriminate|].
  split; [vm_compute; discriminate|].
  apply untagged_identity_collides.
Qed.



Lemma C6_scan_stops_at_failure_witness :
  parse_top_blocks (Some unbalanced) = parse_top_blocks (Some (take 25 unbalanced))
  /\ Forall (fun b => block_end b <= 25) (find_blocks_with_pos unbalanced).
Proof.
  destruct (C6_scan_stops_at_failure elements elements_perm unbalanced 25)
    as (_ & _ & H1 & _ & H2 & _).
  - vm_compute. reflexivity.
  - split; [exact H1|exact H2].
Defined.

(** C6 as stated fails: the text from the failure point on is not the
    tail of the merged output, be it for an orphan inserted before its
    last delimiter or for trailing whitespace that is trimmed. *)
Lemma C6_counterexample :
  failure_point unclosed_sheet = Some 0
  /\ merge_kicad_3way elements None (Some unclosed_sheet) (Some (txt "(text)"))
                      (txt "prefer-head") false
     = Some (txt "(sheet (wire" ++ [LF] ++ txt "(text)" ++ [LF] ++ txt ")")
  /\ ~ suffix (drop 0 unclosed_sheet)
              (txt "(sheet (wire" ++ [LF] ++ txt "(text)" ++ [LF] ++ txt ")")
  /\ failure_point (txt "(wire ") = Some 0
  /\ merge_kicad_3way elements (Some (txt "(wire ")) (Some (txt "(wire "))
                      (Some (txt "(wire ")) (txt "prefer-head") false
     = Some (txt "(wire")
  /\ ~ suffix (drop 0 (txt "(wire ")) (txt "(wire").
Proof.
  split; [vm_compute; reflexivity|]. split; [vm_compute; reflexivity|].
  split; [apply (bool_decide_unpack _); vm_compute; exact I|].
  split; [vm_compute; reflexivity|]. split; [vm_compute; reflexivity|].
  apply (bool_decide_unpack _). vm_compute. exact I.
Qed.

Lemma C7_absent_documents_witness :
  exists st contents,
    reconcile elements None None (Some wire_b) (txt "prefer-head") false = Some st
    /\ Forall2 (fun k c => st.2 !! k = Some c) (elements st.1) contents
    /\ merge_kicad_3way elements None None (Some wire_b) (txt "prefer-head") false
       = Some (match contents with
               | [] => skeleton
               | _ :: _ =>
                   txt "(kicad_sch (version 20211014) (generator merged)"
                   ++ [LF] ++ [LF] ++ join [LF; LF] contents
                   ++ [LF] ++ txt ")"
               end).
Proof. apply (C7_absent_documents elements elements_perm). Defined.

(** The merged text of the last instance. *)
Example merge_into_absent_mainline :
  merge_kicad_3way elements None None (Some wire_b) (txt "prefer-head") false
  = Some (txt "(kicad_sch (version 20211014) (generator merged)"
          ++ [LF; LF] ++ wire_b ++ [LF] ++ txt ")").
Proof. vm_compute. reflexivity. Qed.

(** * Further properties *)

(** ** The scanner *)

Lemma find_loop_elem f s pos b :
  b ∈ find_loop f s pos ->
  exists q e,
    b = ((read_head s q).1, identity (slice s q e), q, e, slice s q e)
    /\ pos <= q /\ s !! q = Some lparen /\ match_paren s q = Some e
    /\ in_head_tokens (read_head s q).1 = true.
Proof.
  revert pos. induction f as [|f IH]; intros pos.
  { intros Hb. by apply elem_of_nil in Hb. }
  rewrite find_loop_S.
  destruct (next_paren s pos) as [q|] eqn:Hq;
    [|intros Hb; by apply elem_of_nil in Hb].
  apply next_paren_Some in Hq as (Hq1 & _ & Hq & _).
  destruct (match_paren s q) as [e|] eqn:He;
    [|intros Hb; by apply elem_of_nil in Hb].
  rewrite elem_of_app. intros [Hb|Hb].
  - destruct (in_head_tokens _) eqn:Hh; [|by apply elem_of_nil in Hb].
    apply list_elem_of_singleton in Hb as ->. by exists q, e.
  - apply IH in Hb as (q' & e' & -> & Hle & Hrest).
    pose proof (match_paren_bounds _ _ _ He).
    exists q', e'. split; [done|]. split; [lia|done].
Qed.

Lemma find_loop_well_placed f s pos b :
  b ∈ find_loop f s pos -> well_placed s b.
Proof.
  intros Hb. apply find_loop_elem in Hb as (q & e & -> & _ & Hq & He & Hh).
  pose proof (match_paren_bounds _ _ _ He) as [H1 H2].
  unfold well_placed. simpl. split; [done|]. split; [done|]. split; [done|].
  split; [done|]. split; [by eapply match_paren_rparen|]. split; [done|].
  unfold text_key. by rewrite (read_head_slice _ _ _ Hq He).
Qed.

Lemma chained_starts s pos bs :
  chained s pos bs -> Forall (fun b => pos <= block_start b) bs.
Proof.
  induction 1 as [pos|pos h st en rest H1 H2 H3 Hh Hch IH]; constructor.
  - simpl. lia.
  - eapply Forall_impl; [exact IH|]. simpl. intros b Hb. lia.
Qed.

Lemma chained_ordered s pos bs i j bi bj :
  chained s pos bs -> i < j -> bs !! i = Some bi -> bs !! j = Some bj ->
  block_end bi <= block_start bj.
Proof.
  intros Hch. revert i j.
  induction Hch as [pos|pos h st en rest H1 H2 H3 Hh Hch IH];
    intros i j Hij Hi Hj; [done|].
  destruct j as [|j]; [lia|]. simpl in Hj.
  destruct i as [|i]; simpl in Hi.
  - injection Hi as <-. simpl.
    apply chained_starts in Hch.
    rewrite Forall_forall in Hch. apply Hch. by eapply list_elem_of_lookup_2.
  - apply (IH i j); [lia|done|done].
Qed.

(** X1.  The blocks the scanner finds are spans of the text in reading
    order.  Each one starts at an opening delimiter, ends just after a
    closing one, lies inside the text, holds exactly the characters of
    its span, has a recognised head keyword and is filed under the key
    of its own text; a later block starts at or after the end of every
    earlier one, so blocks neither overlap nor nest; and
    [parse_top_blocks] returns the same blocks without positions. *)
Theorem blocks_are_ordered_spans (s : text) :
  Forall (well_placed s) (find_blocks_with_pos s)
  /\ (forall i j bi bj,
        i < j ->
        find_blocks_with_pos s !! i = Some bi ->
        find_blocks_with_pos s !! j = Some bj ->
        block_end bi <= block_start bj)
  /\ parse_top_blocks (Some s) = map forget_pos (find_blocks_with_pos s).
Proof.
  split; [|split].
  - apply Forall_forall. intros b Hb. by eapply find_loop_well_placed.
  - intros i j bi bj Hij Hi Hj.
    eapply chained_ordered; [apply find_loop_chained|done..].
  - apply parse_top_blocks_find.
Qed.

Lemma match_loop_shift l j j' depth in_str esc :
  match_loop l j' depth in_str esc
  = (fun r => r - j + j') <$> match_loop l j depth in_str esc.
Proof.
  revert j j' depth in_str esc.
  induction l as [|c l IH]; intros j j' depth in_str esc; simpl; [done|].
  repeat (case_bool_decide || case_match); simpl;
    try (f_equal; lia);
    rewrite (IH (j + 1) (j' + 1));
    destruct (match_loop l (j + 1) _ _ _) as [r|] eqn:Hr; simpl; try done;
    apply match_loop_bounds in Hr; f_equal; lia.
Qed.

Lemma match_paren_slice s q e :
  match_paren s q = Some e -> match_paren (slice s q e) 0 = Some (e - q).
Proof.
  intros Hm. pose proof (match_paren_bounds _ _ _ Hm) as [H1 H2].
  unfold match_paren in *. rewrite drop_0. unfold slice.
  apply match_loop_take; [|lia].
  rewrite (match_loop_shift _ q 0), Hm. simpl. f_equal. lia.
Qed.

Lemma parse_loop_at_end f s : parse_loop f s (length s) = [].
Proof.
  destruct f as [|f]; [done|]. rewrite parse_loop_S.
  unfold next_paren. by rewrite drop_all.
Qed.

Lemma parse_single_block s q e :
  s !! q = Some lparen -> match_paren s q = Some e ->
  in_head_tokens (read_head s q).1 = true ->
  parse_top_blocks (Some (slice s q e))
  = [((read_head s q).1, identity (slice s q e), slice s q e)].
Proof.
  intros Hq He Hh. pose proof (match_paren_bounds _ _ _ He) as [H1 H2].
  set (t := slice s q e).
  assert (Hlen : length t = e - q).
  { unfold t, slice. rewrite length_take, length_drop. lia. }
  assert (Ht0 : next_paren t 0 = Some 0).
  { unfold next_paren. rewrite drop_0.
    assert (Hhd : t !! 0 = Some lparen).
    { unfold t, slice. rewrite lookup_take_lt by lia. rewrite lookup_drop.
      by replace (q + 0) with q by lia. }
    destruct t as [|c t']; [done|]. injection Hhd as ->.
    simpl. by rewrite ?bool_decide_eq_true_2. }
  pose proof (match_paren_slice _ _ _ He) as Hm.
  pose proof (read_head_slice _ _ _ Hq He) as Hr. fold t in Hm, Hr.
  unfold parse_top_blocks. rewrite parse_loop_S, Ht0, Hm, Hr, Hh.
  replace (slice t 0 (e - q)) with t.
  - rewrite <- Hlen, parse_loop_at_end. done.
  - unfold slice. rewrite drop_0, Nat.sub_0_r, <- Hlen. by rewrite firstn_all.
Qed.

Lemma parse_block_alone doc h u blk :
  (h, u, blk) ∈ parse_top_blocks doc ->
  parse_top_blocks (Some blk) = [(h, u, blk)].
Proof.
  destruct doc as [s|]; [|intros Hb; by apply elem_of_nil in Hb].
  rewrite parse_top_blocks_find. intros Hb.
  apply list_elem_of_fmap in Hb as (b & Hb & Hin).
  apply find_loop_elem in Hin as (q & e & -> & _ & Hq & He & Hh).
  simpl in Hb. injection Hb as -> -> ->.
  by apply parse_single_block.
Qed.

Lemma match_loop_balanced l j (d : Z) esc r :
  match_loop l j d false esc = Some r -> dquote ∉ l -> (1 <= d)%Z ->
  Z.of_nat (count_char rparen (take (r - j) l))
  = (d + Z.of_nat (count_char lparen (take (r - j) l)))%Z
  /\ forall m, m < r - j ->
       (Z.of_nat (count_char rparen (take m l))
        < d + Z.of_nat (count_char lparen (take m l)))%Z.
Proof.
  revert j d esc.
  induction l as [|c l IH]; intros j d esc; simpl; [done|].
  intros Hm Hq Hd. apply not_elem_of_cons in Hq as [Hc Hq].
  rewrite ?bool_decide_eq_false_2 in Hm by done.
  case_bool_decide as Hl.
  { subst c. pose proof (match_loop_bounds _ _ _ _ _ _ Hm) as Hb.
    apply IH in Hm as [H1 H2]; [|done|lia].
    replace (r - j) with (S (r - (j + 1))) by lia. simpl.
    rewrite ?bool_decide_eq_false_2 by done.
    rewrite ?bool_decide_eq_true_2 by done. split; [lia|].
    intros [|m] Hlt; simpl; [lia|].
    rewrite ?bool_decide_eq_false_2 by done.
    rewrite ?bool_decide_eq_true_2 by done.
    specialize (H2 m). lia. }
  case_bool_decide as Hr.
  { subst c. destruct (d - 1 =? 0)%Z eqn:Hz.
    - injection Hm as <-. apply Z.eqb_eq in Hz.
      replace (j + 1 - j) with 1 by lia. simpl.
      rewrite ?bool_decide_eq_true_2 by done.
      rewrite ?bool_decide_eq_false_2 by done. split; [lia|].
      intros m Hlt. assert (m = 0) as -> by lia. simpl. lia.
    - apply Z.eqb_neq in Hz.
      pose proof (match_loop_bounds _ _ _ _ _ _ Hm) as Hb.
      apply IH in Hm as [H1 H2]; [|done|lia].
      replace (r - j) with (S (r - (j + 1))) by lia. simpl.
      rewrite ?bool_decide_eq_true_2 by done.
      rewrite ?bool_decide_eq_false_2 by done. split; [lia|].
      intros [|m] Hlt; simpl; [lia|].
      rewrite ?bool_decide_eq_true_2 by done.
      rewrite ?bool_decide_eq_false_2 by done.
      specialize (H2 m). lia. }
  pose proof (match_loop_bounds _ _ _ _ _ _ Hm) as Hb.
  apply IH in Hm as [H1 H2]; [|done|lia].
  replace (r - j) with (S (r - (j + 1))) by lia. simpl.
  rewrite ?bool_decide_eq_false_2 by done. split; [lia|].
  intros [|m] Hlt; simpl; [lia|].
  rewrite ?bool_decide_eq_false_2 by done.
  specialize (H2 m). lia.
Qed.

(** X2.  In a block without a double quote the delimiters balance: it
    has as many opening as closing delimiters, and every proper
    non-empty prefix has more opening than closing ones. *)
Theorem quote_free_block_is_balanced doc h u blk :
  (h, u, blk) ∈ parse_top_blocks doc -> dquote ∉ blk ->
  count_char lparen blk = count_char rparen blk
  /\ forall m, 0 < m -> m < length blk ->
       count_char rparen (take m blk) < count_char lparen (take m blk).
Proof.
  intros Hb Hq. pose proof (parse_block_alone _ _ _ _ Hb) as Hre.
  clear Hb. rewrite parse_top_blocks_find in Hre.
  assert (Hin : (h, u, blk) ∈ map forget_pos (find_blocks_with_pos blk))
    by (rewrite Hre; by left).
  apply list_elem_of_fmap in Hin as (b & Hb & Hin).
  apply find_loop_elem in Hin as (q & e & -> & _ & Hlp & He & _).
  simpl in Hb. injection Hb as _ _ Hblk.
  pose proof (match_paren_bounds _ _ _ He) as [Hb1 Hb2].
  assert (q = 0 /\ e = length blk) as [-> ->].
  { apply (f_equal length) in Hblk. unfold slice in Hblk.
    rewrite length_take, length_drop in Hblk. lia. }
  clear Hblk. unfold match_paren in He. rewrite drop_0 in He.
  destruct blk as [|c blk]; [done|]. injection Hlp as ->.
  apply not_elem_of_cons in Hq as [_ Hq].
  simpl in He. rewrite ?bool_decide_eq_false_2 in He by done.
  rewrite ?bool_decide_eq_true_2 in He by done.
  apply match_loop_balanced in He as [H1 H2]; [|done|lia].
  simpl length in *. replace (S (length blk) - 1) with (length blk) in * by lia.
  rewrite firstn_all in H1. simpl.
  rewrite ?bool_decide_eq_true_2 by done.
  rewrite ?bool_decide_eq_false_2 by done. split; [lia|].
  intros [|m] H0 Hlt; [lia|]. simpl.
  rewrite ?bool_decide_eq_true_2 by done.
  rewrite ?bool_decide_eq_false_2 by done.
  specialize (H2 m). lia.
Qed.

(** X3.  A block returned by [parse_top_blocks] is a document of its
    own: scanning the block text alone returns that block and nothing
    else, under the same keyword and identity, which are the key of the
    text. *)
Theorem block_reparses_to_itself doc h u blk :
  (h, u, blk) ∈ parse_top_blocks doc ->
  parse_top_blocks (Some blk) = [(h, u, blk)]
  /\ (h, u) = text_key blk.
Proof.
  intros Hb. split; [by eapply parse_block_alone|].
  destruct doc as [s|]; [|by apply elem_of_nil in Hb].
  rewrite parse_top_blocks_find in Hb.
  apply list_elem_of_fmap in Hb as (b & Hb & Hin).
  apply find_loop_text_key in Hin. rewrite <- Hb in Hin. simpl in Hin.
  rewrite <- Hin, <- forget_pos_key, <- Hb. done.
Qed.

(** ** Identities *)

Lemma lower_hex_char c :
  Chr.is_hex_or_hyphen c = true ->
  is_identity_char (Chr.lower c) = true /\ Chr.lower (Chr.lower c) = Chr.lower c.
Proof. destruct c as [[] [] [] [] [] [] [] []]; vm_compute; intros; split; congruence. Qed.

Lemma identity_char_lower c : is_identity_char c = true -> Chr.lower c = c.
Proof. destruct c as [[] [] [] [] [] [] [] []]; vm_compute; congruence. Qed.

Lemma hex_digits_table :
  forallb (fun n => is_identity_char (Sha1.hex_digit (Z.shiftr (Z.of_nat n) 4))
                    && is_identity_char (Sha1.hex_digit (Z.land (Z.of_nat n) 15)))
          (seq 0 256) = true.
Proof. vm_compute. reflexivity. Qed.

Lemma hex_identity_chars (bs : list Z) :
  Forall (fun b => (0 <= b < 256)%Z) bs ->
  Forall (fun c => is_identity_char c = true) (Sha1.hex bs).
Proof.
  induction 1 as [|b bs Hb _ IH]; [constructor|].
  change (Sha1.hex (b :: bs))
    with (Sha1.hex_digit (Z.shiftr b 4) :: Sha1.hex_digit (Z.land b 15) :: Sha1.hex bs).
  pose proof hex_digits_table as Ht. rewrite forallb_forall in Ht.
  specialize (Ht (Z.to_nat b)). rewrite Z2Nat.id in Ht by lia.
  apply andb_true_iff in Ht as [H1 H2]; [by repeat constructor|].
  apply in_seq. lia.
Qed.

Lemma be_bytes_range count x : Forall (fun b => (0 <= b < 256)%Z) (Sha1.be_bytes count x).
Proof.
  unfold Sha1.be_bytes. apply Forall_forall. intros b Hb.
  apply list_elem_of_fmap in Hb as (i & -> & _).
  change 255%Z with (Z.ones 8). rewrite Z.land_ones by lia.
  apply Z.mod_pos_bound. lia.
Qed.

Lemma hexdigest_identity_chars s :
  Forall (fun c => is_identity_char c = true) (Sha1.hexdigest s).
Proof.
  unfold Sha1.hexdigest, Sha1.digest.
  destruct (Sha1.blocks _ _ _) as [[[[h0 h1] h2] h3] h4].
  apply hex_identity_chars. cbn [flat_map].
  repeat (apply Forall_app; split); try apply be_bytes_range. constructor.
Qed.

Lemma re_search_uuid_token l g :
  re_search_uuid l = Some g ->
  8 <= length g /\ Forall (fun c => Chr.is_hex_or_hyphen c = true) g.
Proof.
  induction l as [|c l IH]; unfold re_search_uuid; fold re_search_uuid.
  - destruct (uuid_match_here []) as [g'|] eqn:Hg; [|done].
    intros [= ->]. apply uuid_match_here_spec in Hg as (ws & post & _ & _ & _ & _ & H1 & H2).
    done.
  - destruct (uuid_match_here (c :: l)) as [g'|] eqn:Hg; [|done].
    intros [= ->]. apply uuid_match_here_spec in Hg as (ws & post & _ & _ & _ & _ & H1 & H2).
    done.
Qed.

(** X4.  An identity is made of the characters [0-9], [a-f] and the
    hyphen, has at least 8 characters and is its own lower-case form;
    when the pattern finds no identifier field it has exactly 40
    characters. *)
Theorem identity_is_canonical (block : text) :
  8 <= length (identity block)
  /\ Forall (fun c => is_identity_char c = true) (identity block)
  /\ lower (identity block) = identity block
  /\ (re_search_uuid block = None -> length (identity block) = 40).
Proof.
  assert (Hlow : forall u, Forall (fun c => is_identity_char c = true) u -> lower u = u).
  { induction 1 as [|c u Hc _ IH]; [done|].
    unfold lower in *. simpl. by rewrite IH, identity_char_lower. }
  unfold identity. destruct (re_search_uuid block) as [g|] eqn:Hg.
  - apply re_search_uuid_token in Hg as [Hlen Hhex].
    assert (Hid : Forall (fun c => is_identity_char c = true) (lower g)).
    { unfold lower. apply Forall_fmap. eapply Forall_impl; [exact Hhex|].
      intros c Hc. by apply lower_hex_char. }
    split; [unfold lower; by rewrite length_map|]. split; [done|].
    split; [by apply Hlow|done].
  - pose proof (hexdigest_identity_chars block) as Hid.
    rewrite hexdigest_length. split; [lia|]. split; [done|].
    split; [by apply Hlow|done].
Qed.

(** ** The rebuilder *)

Lemma concat_snoc (out : list text) (x : text) : concat (out ++ [x]) = concat out ++ x.
Proof. rewrite concat_app. simpl. by rewrite app_nil_r. Qed.

(** The text between the blocks survives any choice of keep set. *)
Lemma rebuild_fold_gaps (s : text) (keep : gset key) (replace : gmap key text)
    (bs : list (text * text * nat * nat * text)) (st1 st2 : rebuild_state) :
  st1.1.2 = st2.1.2 -> sublist (concat st1.1.1) (concat st2.1.1) ->
  let r1 := foldl (rebuild_step s ∅ ∅) st1 bs in
  let r2 := foldl (rebuild_step s keep replace) st2 bs in
  r1.1.2 = r2.1.2 /\ sublist (concat r1.1.1) (concat r2.1.1).
Proof.
  revert st1 st2. induction bs as [|b bs IH];
    intros [[out1 last1] p1] [[out2 last2] p2] Hl Hs; simpl in Hl; [done|].
  subst last2. cbn [foldl]. apply IH.
  - destruct b as [[[[h u] st] en] blk]. unfold rebuild_step.
    repeat case_bool_decide; done.
  - destruct b as [[[[h u] st] en] blk]. unfold rebuild_step.
    rewrite bool_decide_eq_false_2 by apply not_elem_of_empty.
    case_bool_decide; simpl.
    + rewrite concat_snoc, concat_app. simpl. rewrite app_nil_r.
      apply sublist_app; [done|]. by apply sublist_inserts_r.
    + rewrite !concat_snoc. by apply sublist_app.
Qed.

Lemma rebuild_joined_no_blocks (s : text) (keep : gset key) (replace : gmap key text) :
  find_blocks_with_pos s = [] -> rebuild_joined s keep replace = s.
Proof.
  unfold rebuild_joined, rebuild_scan. intros ->. simpl. apply app_nil_r.
Qed.

(** X5.  The rebuilder's loop never drops text outside the blocks: what
    it produces for any keep set and replacement map contains, in
    order, the text it produces when nothing is kept; and a text
    without recognised blocks is copied unchanged. *)
Theorem rebuild_keeps_text_between_blocks (s : text) (keep : gset key)
    (replace : gmap key text) :
  sublist (rebuild_joined s ∅ ∅) (rebuild_joined s keep replace)
  /\ (block_keys s = [] -> rebuild_joined s keep replace = s).
Proof.
  split.
  - rewrite !rebuild_joined_eq. unfold rebuild_scan.
    destruct (rebuild_fold_gaps s keep replace (find_blocks_with_pos s)
                ([], 0, ∅) ([], 0, ∅)) as [H1 H2]; [done|done|].
    rewrite H1. by apply sublist_app.
  - intros Hk. apply rebuild_joined_no_blocks.
    unfold block_keys in Hk. by apply map_eq_nil in Hk.
Qed.

Lemma span_len_drop_span p l : span_len p (drop (span_len p l) l) = 0.
Proof.
  induction l as [|c l IH]; simpl; [done|].
  destruct (p c) eqn:Hc; simpl; [done|]. by rewrite Hc.
Qed.

Lemma rstrip_idemp s : rstrip (rstrip s) = rstrip s.
Proof.
  unfold rstrip. rewrite reverse_involutive, span_len_drop_span. done.
Qed.

Lemma rstrip_snoc s c : Chr.isspace c = false -> rstrip (s ++ [c]) = s ++ [c].
Proof.
  intros Hc. rewrite (rstrip_app _ _ c); [|by apply list_elem_of_singleton|done].
  f_equal. unfold rstrip. simpl. by rewrite Hc.
Qed.

Lemma append_missing_rstrip merged missing :
  rstrip merged = merged -> rstrip (append_missing merged missing) = append_missing merged missing.
Proof.
  intros Hm. destruct missing as [|m ms]; [done|]. unfold append_missing.
  change (txt ")") with [rparen]. rewrite !app_assoc. by apply rstrip_snoc.
Qed.

Section RebuildMore.

Variable set_iter : gset key -> list key.
Hypothesis set_iter_perm : forall X, set_iter X ≡ₚ elements X.

(** X6.  [rebuild_from] raises (the [KeyError] of [replace_map[k]])
    exactly when a kept key has no position in the base text and no
    entry in the replacement map. *)
Theorem rebuild_from_fails_iff (base : option text) (keep : gset key)
    (replace : gmap key text) :
  rebuild_from set_iter base keep replace = None
  <-> exists k, k ∈ keep /\ (k ∉ block_keys (default skeleton base))
                /\ replace !! k = None.
Proof.
  rewrite (rebuild_from_orphans set_iter set_iter_perm).
  destruct (mapM _ _) as [missing|] eqn:Hm; simpl.
  - split; [done|]. intros (k & Hk1 & Hk2 & Hk3).
    apply mapM_Some in Hm.
    assert (Hin : k ∈ orphans set_iter (default skeleton base) keep).
    { by apply (elem_of_orphans set_iter set_iter_perm). }
    apply list_elem_of_lookup in Hin as [i Hi].
    destruct (Forall2_lookup_l _ _ _ _ _ Hm Hi) as (c & _ & Hc). congruence.
  - split; [|done]. intros _. apply mapM_None in Hm.
    apply Exists_exists in Hm as (k & Hin & Hk).
    apply (elem_of_orphans set_iter set_iter_perm) in Hin as [H1 H2].
    by exists k.
Qed.

(** X7.  Whatever [rebuild_from] returns has no trailing whitespace. *)
Theorem rebuild_from_is_rstripped (base : option text) (keep : gset key)
    (replace : gmap key text) (out : text) :
  rebuild_from set_iter base keep replace = Some out -> rstrip out = out.
Proof.
  rewrite (rebuild_from_orphans set_iter set_iter_perm).
  destruct (mapM _ _) as [missing|]; simpl; [|done].
  intros [= <-]. apply append_missing_rstrip, rstrip_idemp.
Qed.

End RebuildMore.

Section MergeTotal.

Variable set_iter : gset key -> list key.
Hypothesis set_iter_perm : forall X, set_iter X ≡ₚ elements X.

(** X8.  From the three texts that [git_show] returned, each present
    or absent, [merge_kicad_3way] raises no [KeyError]: the lookups
    [B[(h,u)]], [H[(h,u)]] and [replace_map[k]] always find their key,
    so the decisions and a merged text are computed, for every mode
    string and either deletion setting.  Fetching and decoding the
    texts is no part of this statement. *)
Theorem merge_kicad_3way_raises_no_KeyError mb base head mode allow :
  is_Some (reconcile set_iter mb base head mode allow)
  /\ is_Some (merge_kicad_3way set_iter mb base head mode allow).
Proof.
  destruct (merge_kicad_3way_result set_iter set_iter_perm mb base head mode allow)
    as (st & cs & Hst & _ & Hm).
  rewrite Hst, Hm. eauto.
Qed.

End MergeTotal.

(** ** The reconciler *)

Lemma unrecognised_root_no_blocks s :
  unrecognised_root s -> find_blocks_with_pos s = [].
Proof.
  intros (p & e & Hp & He & Hh & Hn). unfold find_blocks_with_pos.
  rewrite find_loop_S, Hp, He, Hh. simpl.
  destruct (length s) as [|n]; [done|]. by rewrite find_loop_S, Hn.
Qed.

Lemma find_blocks_skeleton : find_blocks_with_pos skeleton = [].
Proof. vm_compute. reflexivity. Qed.


Lemma rebuild_joined_same (s : text) (keep : gset key) (replace : gmap key text) :
  (forall b, b ∈ find_blocks_with_pos s ->
             block_key b ∈ keep /\ replace !! block_key b = Some (forget_pos b).2) ->
  rebuild_joined s keep replace = s.
Proof.
  intros Hall. rewrite rebuild_joined_eq. unfold rebuild_scan.
  apply (rebuild_fold_copy s keep replace 0 _ ([], 0, ∅));
    [apply find_loop_chained|simpl; lia|done].
Qed.

(** With consistent keys, the snapshot maps the key of every block to
    that block's own text. *)
Lemma snapshot_own_block s b :
  consistent_keys s -> b ∈ find_blocks_with_pos s ->
  snapshot (parse_top_blocks (Some s)) !! block_key b = Some (forget_pos b).2.
Proof.
  intros Hcons Hb.
  assert (Hk : block_key b ∈ block_keys s).
  { unfold block_keys. apply list_elem_of_fmap. eauto. }
  apply block_keys_dom, elem_of_dom in Hk as [blk Hblk]. rewrite Hblk. f_equal.
  apply snapshot_lookup_Some in Hblk.
  assert (Hb' : forget_pos b ∈ parse_top_blocks (Some s)).
  { rewrite parse_top_blocks_find. apply list_elem_of_fmap. eauto. }
  destruct b as [[[[h u] st'] en] blk']. simpl in *. by apply (Hcons h u).
Qed.

Section ReconcileMore.

Variable set_iter : gset key -> list key.
Hypothesis set_iter_perm : forall X, set_iter X ≡ₚ elements X.

(** When every positioned key is decided for the mainline block, the
    rebuilder's loop copies the mainline text. *)
Lemma rebuild_joined_mainline mb base head mode allow st :
  reconcile set_iter mb base head mode allow = Some st ->
  consistent_mainline base ->
  (forall k, k ∈ dom (snapshot (parse_top_blocks base)) ->
             verdict (snapshot (parse_top_blocks mb))
                     (snapshot (parse_top_blocks base))
                     (snapshot (parse_top_blocks head)) mode allow k
             = snapshot (parse_top_blocks base) !! k) ->
  rebuild_joined (default skeleton base) st.1 st.2 = default skeleton base.
Proof.
  intros Hst Hcons Hv.
  pose proof (reconcile_inv set_iter set_iter_perm _ _ _ _ _ _ Hst) as Hk.
  destruct base as [s|]; simpl.
  - apply rebuild_joined_same. intros b Hb.
    pose proof (snapshot_own_block s b Hcons Hb) as Hown.
    assert (Hd : block_key b ∈ dom (snapshot (parse_top_blocks (Some s))))
      by (apply elem_of_dom; eauto).
    destruct (Hk (block_key b)) as [H1 H2]. rewrite (Hv _ Hd) in H1, H2.
    split; [apply H1; eauto|]. by rewrite H2.
  - apply rebuild_joined_no_blocks, find_blocks_skeleton.
Qed.

(** X9.  The reconciler keeps a key exactly when it stores a replacement
    for it; every kept key is a key of the mainline or of the proposed
    document, and the stored content is the block one of these two
    holds for the key: content of the ancestor is never used. *)
Theorem reconcile_takes_blocks_from_mainline_or_proposed
    mb base head mode allow st :
  reconcile set_iter mb base head mode allow = Some st ->
  forall k,
    (k ∈ st.1 <-> is_Some (st.2 !! k))
    /\ (k ∈ st.1 ->
        k ∈ dom (snapshot (parse_top_blocks base))
            ∪ dom (snapshot (parse_top_blocks head)))
    /\ (forall c, st.2 !! k = Some c ->
                  snapshot (parse_top_blocks base) !! k = Some c
                  \/ snapshot (parse_top_blocks head) !! k = Some c).
Proof.
  intros Hst k.
  destruct (reconcile_inv set_iter set_iter_perm _ _ _ _ _ _ Hst k) as [H1 H2].
  rewrite H2. split; [done|]. rewrite H1. clear H1 H2.
  unfold verdict, choose_overlap.
  rewrite elem_of_union, <- !has_key_dom.
  destruct (has_key (snapshot (parse_top_blocks base)) k),
           (has_key (snapshot (parse_top_blocks head)) k);
    repeat case_bool_decide;
    destruct (has_key (snapshot (parse_top_blocks mb)) k), allow; simpl;
    (split; [intros [? ?]; auto; done|]); intros c Hc; auto; done.
Qed.

(** X10.  Without deletions every key of the mainline is kept.  Allowing
    deletions removes from the keep set exactly the keys that the
    ancestor and the mainline have and the proposed document lacks,
    and changes no stored content. *)
Theorem allow_deletions_only_drops_proposed_removals
    mb base head mode st_keep st_del :
  reconcile set_iter mb base head mode false = Some st_keep ->
  reconcile set_iter mb base head mode true = Some st_del ->
  (forall k, k ∈ dom (snapshot (parse_top_blocks base)) -> k ∈ st_keep.1)
  /\ (forall k,
        k ∈ st_del.1 <->
        k ∈ st_keep.1
        /\ ~ (k ∈ dom (snapshot (parse_top_blocks mb))
              /\ k ∈ dom (snapshot (parse_top_blocks base))
              /\ k ∉ dom (snapshot (parse_top_blocks head))))
  /\ (forall k, k ∈ st_del.1 -> st_del.2 !! k = st_keep.2 !! k).
Proof.
  intros H0 H1.
  pose proof (reconcile_inv set_iter set_iter_perm _ _ _ _ _ _ H0) as Hk0.
  pose proof (reconcile_inv set_iter set_iter_perm _ _ _ _ _ _ H1) as Hk1.
  assert (Hcase : forall k,
    let M := snapshot (parse_top_blocks mb) in
    let B := snapshot (parse_top_blocks base) in
    let H := snapshot (parse_top_blocks head) in
    (has_key B k = true -> is_Some (verdict M B H mode false k))
    /\ (is_Some (verdict M B H mode true k) <->
        is_Some (verdict M B H mode false k)
        /\ ~ (has_key M k = true /\ has_key B k = true /\ has_key H k <> true))
    /\ (is_Some (verdict M B H mode true k) ->
        verdict M B H mode true k = verdict M B H mode false k)).
  { intros k M B H. unfold verdict, choose_overlap.
    destruct (has_key M k) eqn:HM, (has_key B k) eqn:HB, (has_key H k) eqn:HH;
      try (apply has_key_true in HB); try (apply has_key_true in HH);
      repeat case_bool_decide; simpl;
      (split; [try done; intros; done|]);
      (split; [|try done]);
      try (split; [intros ?; split; [done|]; intros (? & ? & ?); done
                  |intros [? ?]; done]);
      try (split; [intros [? ?]; done|]; intros [_ Hn]; destruct Hn; done). }
  split; [|split].
  - intros k Hk. destruct (Hcase k) as (Ha & _ & _).
    apply Hk0, Ha. by apply has_key_dom.
  - intros k. destruct (Hcase k) as (_ & Hb & _).
    destruct (Hk0 k) as [-> _], (Hk1 k) as [-> _].
    rewrite <- !has_key_dom.
    destruct (has_key (snapshot (parse_top_blocks head)) k); simpl in *;
      rewrite Hb; intuition congruence.
  - intros k Hk. destruct (Hcase k) as (_ & _ & Hc).
    destruct (Hk0 k) as [_ ->], (Hk1 k) as [Hi ->].
    apply Hc. by apply Hi.
Qed.

Lemma verdict_other_modes (M B H : gmap key text) mode1 mode2 allow k :
  mode1 <> txt "prefer-head" -> mode2 <> txt "prefer-head" ->
  verdict M B H mode1 allow k = verdict M B H mode2 allow k.
Proof.
  intros H1 H2. unfold verdict, choose_overlap.
  by rewrite !bool_decide_eq_false_2 by done.
Qed.

Lemma decisions_ext (st st' : decisions) :
  (forall k, k ∈ st.1 <-> k ∈ st'.1) -> (forall k, st.2 !! k = st'.2 !! k) ->
  st = st'.
Proof.
  destruct st as [keep rep], st' as [keep' rep']. simpl. intros Hk Hr.
  f_equal; [by apply set_eq|by apply map_eq].
Qed.

(** X11.  Only the mode string [prefer-head] is special: any two other
    mode strings ([prefer-base], [add-only] or anything else) give the
    same decisions and the same merged text. *)
Theorem other_modes_merge_alike mb base head mode1 mode2 allow :
  mode1 <> txt "prefer-head" -> mode2 <> txt "prefer-head" ->
  reconcile set_iter mb base head mode1 allow
  = reconcile set_iter mb base head mode2 allow
  /\ merge_kicad_3way set_iter mb base head mode1 allow
     = merge_kicad_3way set_iter mb base head mode2 allow.
Proof.
  intros H1 H2.
  assert (Hr : reconcile set_iter mb base head mode1 allow
               = reconcile set_iter mb base head mode2 allow).
  { destruct (reconcile_verdict set_iter set_iter_perm mb base head mode1 allow)
      as (st & Hst & Hk).
    destruct (reconcile_verdict set_iter set_iter_perm mb base head mode2 allow)
      as (st' & Hst' & Hk').
    rewrite Hst, Hst'. f_equal. apply decisions_ext; intros k.
    - destruct (Hk k) as [-> _], (Hk' k) as [-> _].
      by rewrite (verdict_other_modes _ _ _ mode1 mode2).
    - destruct (Hk k) as [_ ->], (Hk' k) as [_ ->].
      by apply verdict_other_modes. }
  split; [done|]. unfold merge_kicad_3way. by rewrite Hr.
Qed.

Lemma no_orphans_output mb base head mode allow st :
  reconcile set_iter mb base head mode allow = Some st ->
  (forall k, k ∈ st.1 -> k ∈ block_keys (default skeleton base)) ->
  merge_kicad_3way set_iter mb base head mode allow
  = Some (rstrip (rebuild_joined (default skeleton base) st.1 st.2)).
Proof.
  intros Hst Hpos.
  destruct (merge_kicad_3way_result set_iter set_iter_perm mb base head mode allow)
    as (st' & cs & Hst' & Hf & Hm).
  rewrite Hst in Hst'. injection Hst' as <-.
  assert (Ho : orphans set_iter (default skeleton base) st.1 = []).
  { apply filter_none. intros k Hin Hno. apply Hno, Hpos.
    by apply (elem_of_set_iter set_iter set_iter_perm) in Hin. }
  rewrite Ho in Hf. apply Forall2_nil_inv_l in Hf as ->. by rewrite Hm.
Qed.

(** X12.  When the proposed document equals the mainline and its keys
    are consistent, the merge returns the mainline without trailing
    whitespace, whatever the ancestor, the mode and the deletion
    setting. *)
Theorem unchanged_proposal_returns_mainline mb (T : text) mode allow :
  consistent_keys T ->
  merge_kicad_3way set_iter mb (Some T) (Some T) mode allow = Some (rstrip T).
Proof.
  intros Hcons.
  destruct (reconcile_verdict set_iter set_iter_perm mb (Some T) (Some T) mode allow)
    as (st & Hst & Hk).
  assert (Hv : forall k,
             verdict (snapshot (parse_top_blocks mb))
                     (snapshot (parse_top_blocks (Some T)))
                     (snapshot (parse_top_blocks (Some T))) mode allow k
             = snapshot (parse_top_blocks (Some T)) !! k).
  { intros k. unfold verdict, choose_overlap.
    destruct (has_key (snapshot (parse_top_blocks (Some T))) k) eqn:HB;
      [by case_bool_decide|].
    symmetry. by apply has_key_false. }
  rewrite (no_orphans_output _ _ _ _ _ _ Hst).
  - simpl. do 2 f_equal.
    apply (rebuild_joined_mainline mb (Some T) (Some T) mode allow st Hst Hcons).
    intros k _. apply Hv.
  - intros k Hin. apply Hk in Hin. rewrite Hv in Hin.
    simpl. by apply block_keys_dom, elem_of_dom.
Qed.


(** X14.  A document that is one top-level construct with an
    unrecognised head keyword, as a whole [kicad_sch] file is, has no
    blocks: the scanner steps over the construct without looking
    inside.  When the mainline and the proposed document both have
    this form the merge returns the mainline, trailing whitespace
    stripped, and nothing of the proposed document. *)
Theorem rooted_documents_merge_to_mainline mb (B H : text) mode allow :
  unrecognised_root B -> unrecognised_root H ->
  parse_top_blocks (Some B) = [] /\ parse_top_blocks (Some H) = []
  /\ merge_kicad_3way set_iter mb (Some B) (Some H) mode allow = Some (rstrip B).
Proof.
  intros HB HH.
  apply unrecognised_root_no_blocks in HB, HH.
  assert (HpB : parse_top_blocks (Some B) = [])
    by (by rewrite parse_top_blocks_find, HB).
  assert (HpH : parse_top_blocks (Some H) = [])
    by (by rewrite parse_top_blocks_find, HH).
  split; [done|]. split; [done|].
  destruct (reconcile_verdict set_iter set_iter_perm mb (Some B) (Some H) mode allow)
    as (st & Hst & Hk).
  rewrite (no_orphans_output _ _ _ _ _ _ Hst).
  - simpl. do 2 f_equal. by apply rebuild_joined_no_blocks.
  - intros k Hin. apply Hk in Hin. rewrite HpB, HpH in Hin.
    unfold verdict in Hin.
    replace (has_key (snapshot []) k) with false in Hin by done.
    by destruct Hin.
Qed.

End ReconcileMore.

(** ** The cache parser and the union *)

Lemma slice_app {A} (l : list A) i j e :
  i <= j -> j <= e -> slice l i j ++ slice l j e = slice l i e.
Proof.
  intros Hij Hje. unfold slice.
  replace (e - i) with ((j - i) + (e - j)) by lia.
  rewrite <- take_take_drop, drop_drop. do 3 f_equal. lia.
Qed.

Lemma nth_drop {A} (l : list A) n k d : nth k (drop n l) d = nth (n + k) l d.
Proof.
  revert n. induction l as [|a l IH]; intros n.
  - rewrite drop_nil. destruct k; by destruct (n + _).
  - destruct n as [|n]; [done|]. apply IH.
Qed.

(** Where the inner loop stops: at the next header pair, or one line
    before the end of the lines. *)
Lemma inner_loop_stop ls j0 :
  exists k,
    inner_loop ls j0 = j0 + k /\ k <= length ls - 1
    /\ (forall m, m < k -> header_pair_at ls m = false)
    /\ ((k + 1 < length ls /\ header_pair_at ls k = true)
        \/ length ls - 1 <= k).
Proof.
  revert j0. induction ls as [|a ls IH]; intros j0.
  { exists 0. simpl. split; [lia|]. split; [lia|]. split; [lia|]. right. lia. }
  destruct ls as [|b ls].
  { exists 0. simpl. split; [lia|]. split; [lia|]. split; [lia|]. right. lia. }
  change (inner_loop (a :: b :: ls) j0)
    with (if is_category_line a && is_category_line b then j0
          else inner_loop (b :: ls) (j0 + 1)).
  destruct (is_category_line a && is_category_line b) eqn:Hab.
  - exists 0. split; [lia|]. split; [lia|]. split; [lia|].
    left. split; [simpl; lia|]. done.
  - destruct (IH (j0 + 1)) as (k & Hk & Hle & Hno & Hend).
    exists (S k). rewrite Hk. split; [lia|]. split; [simpl in *; lia|]. split.
    + intros [|m] Hm; [done|]. apply (Hno m). lia.
    + destruct Hend as [[H1 H2]|H1]; [left|right]; simpl in *; [|lia].
      split; [lia|done].
Qed.

Lemma header_pair_at_drop lines n k :
  header_pair_at (drop n lines) k = header_pair_at lines (n + k).
Proof.
  unfold header_pair_at. rewrite !nth_drop. by rewrite Nat.add_assoc.
Qed.

Lemma has_header_pair_false ls :
  has_header_pair ls = false
  <-> forall m, m + 1 < length ls -> header_pair_at ls m = false.
Proof.
  induction ls as [|a ls IH]; [simpl; split; [intros; lia|done]|].
  destruct ls as [|b ls]; [simpl; split; [intros; lia|done]|].
  change (has_header_pair (a :: b :: ls))
    with ((is_category_line a && is_category_line b) || has_header_pair (b :: ls)).
  rewrite orb_false_iff, IH. split.
  - intros [Hab Hrest] [|m] Hm; [done|]. apply (Hrest m). simpl in *. lia.
  - intros Hall. split; [apply (Hall 0); simpl; lia|].
    intros m Hm. apply (Hall (S m)). simpl in *. lia.
Qed.

Lemma nth_take_lt {A} (l : list A) n k d : k < n -> nth k (take n l) d = nth k l d.
Proof.
  revert n k. induction l as [|a l IH]; intros [|n] [|k] Hk; simpl; try done; try lia.
  apply IH. lia.
Qed.

Lemma inner_loop_in_lines lines i :
  i + 2 <= length lines ->
  let j := inner_loop (drop (i + 2) lines) (i + 2) in
  i + 2 <= j /\ j <= length lines
  /\ (j = length lines -> j = i + 2)
  /\ has_header_pair (slice lines (i + 2) j) = false
  /\ ((j + 1 < length lines /\ header_pair_at lines j = true)
      \/ length lines - 1 <= j).
Proof.
  intros Hi. destruct (inner_loop_stop (drop (i + 2) lines) (i + 2))
    as (k & Hk & Hle & Hno & Hend).
  simpl. rewrite Hk. rewrite length_drop in Hle, Hend.
  rewrite header_pair_at_drop in Hend.
  split; [lia|]. split; [lia|]. split; [lia|]. split.
  - apply has_header_pair_false. intros m Hm. unfold slice in *.
    rewrite length_take, length_drop in Hm.
    unfold header_pair_at. rewrite !nth_take_lt by lia.
    apply (Hno m). lia.
  - destruct Hend as [[H1 H2]|H1]; [left|right]; [|lia]. split; [lia|done].
Qed.

(** The records tile one stretch of the lines, which starts at the first
    header pair and ends at the last line or one line before it; it
    reaches the last line only when the final record is a bare pair of
    header lines. *)
Lemma info_loop_tiles f lines n :
  forall i, length lines - i <= n -> length lines - i <= f ->
  let recs := info_loop f lines i in
  (recs = [] /\ forall j, i <= j -> j + 1 < length lines ->
                          header_pair_at lines j = false)
  \/ exists a e,
      i <= a /\ a + 1 < length lines /\ header_pair_at lines a = true
      /\ (forall j, i <= j -> j < a -> header_pair_at lines j = false)
      /\ length lines - 1 <= e /\ e <= length lines
      /\ concat (map snd recs) = slice lines a e
      /\ (e = length lines ->
          exists r, last recs = Some r /\ r.2 = slice lines (e - 2) e).
Proof.
  induction n as [|n IH]; intros i Hn Hf; simpl.
  { left. rewrite info_loop_unfold by done.
    replace (i + 1 <? length lines) with false
      by (symmetry; apply Nat.ltb_ge; lia).
    split; [done|]. intros j H1 H2. lia. }
  rewrite info_loop_unfold by done.
  destruct (i + 1 <? length lines) eqn:Hi.
  2:{ left. split; [done|]. apply Nat.ltb_ge in Hi. intros j H1 H2. lia. }
  apply Nat.ltb_lt in Hi. fold (header_pair_at lines i).
  destruct (header_pair_at lines i) eqn:Hp.
  - right. exists i.
    destruct (inner_loop_in_lines lines i) as (Hj1 & Hj2 & Hj4 & _ & Hj3); [lia|].
    set (j := inner_loop (drop (i + 2) lines) (i + 2)) in *.
    destruct (IH j)
      as [[Hnil Hno]|(a' & e' & Ha1 & Ha2 & Ha3 & Ha4 & He1 & He2 & Hc & Hl)];
      [lia|lia| |].
    + exists j. rewrite Hnil. simpl. rewrite app_nil_r.
      split; [lia|]. split; [done|]. split; [done|]. split; [intros; lia|].
      split.
      { destruct Hj3 as [[H1 H2]|H1]; [|done].
        rewrite (Hno j) in H2; [done|lia|done]. }
      split; [done|]. split; [done|].
      intros He. eexists. split; [done|]. simpl.
      rewrite (Hj4 He). f_equal. lia.
    + exists e'. simpl. rewrite Hc.
      assert (a' = j) as ->.
      { destruct Hj3 as [[H1 H2]|H1]; [|lia].
        destruct (decide (a' = j)) as [|Hne]; [done|].
        rewrite (Ha4 j) in H2; [done|lia|lia]. }
      split; [lia|]. split; [done|]. split; [done|]. split; [intros; lia|].
      split; [done|]. split; [done|]. split; [apply slice_app; lia|].
      intros He. destruct (Hl He) as (r & Hr & Hr2). exists r. split; [|done].
      destruct (info_loop f lines j) as [|r0 rs]; [done|]. done.
  - destruct (IH (i + 1)) as [[Hnil Hno]|(a & e & Ha1 & Ha2 & Ha3 & Ha4 & He)];
      [lia|lia| |].
    + left. split; [done|]. intros j H1 H2.
      destruct (decide (j = i)) as [->|]; [done|]. apply Hno; lia.
    + right. exists a, e. split; [lia|]. split; [done|]. split; [done|].
      split; [|done]. intros j H1 H2.
      destruct (decide (j = i)) as [->|]; [done|]. apply Ha4; lia.
Qed.

(** X15.  The records of a cache document, one after the other, are one
    stretch of its lines: it starts at the first pair of adjacent
    header candidates and ends at the last line or one line before it,
    so the lines before the first pair are dropped and no line after
    it is lost or repeated, the last one apart; the stretch includes
    the last line only when the final record is the last two lines.
    Without a pair of adjacent header candidates there is no record. *)
Theorem records_tile_the_document (s : text) :
  let lines := splitlines s in
  let recs := parse_info_blocks (Some s) in
  (recs = [] /\ has_header_pair lines = false)
  \/ exists a e,
      a + 1 < length lines /\ header_pair_at lines a = true
      /\ has_header_pair (take (a + 1) lines) = false
      /\ length lines - 1 <= e /\ e <= length lines
      /\ concat (map snd recs) = slice lines a e
      /\ (e = length lines ->
          exists r, last recs = Some r /\ r.2 = slice lines (e - 2) e).
Proof.
  simpl. unfold parse_info_lines.
  destruct (info_loop_tiles (length (splitlines s)) (splitlines s)
              (length (splitlines s)) 0)
    as [[Hnil Hno]|(a & e & _ & Ha2 & Ha3 & Ha4 & He)]; [lia|lia| |].
  - left. split; [done|]. apply has_header_pair_false.
    intros j Hj. apply Hno; lia.
  - right. exists a, e. split; [done|]. split; [done|]. split; [|done].
    apply has_header_pair_false. intros j Hj.
    rewrite length_take in Hj. unfold header_pair_at.
    rewrite !nth_take_lt by lia. apply Ha4; lia.
Qed.

(** What a record looks like. *)
Lemma info_loop_shape f lines i r :
  r ∈ info_loop f lines i ->
  exists a b rest,
    r.2 = a :: b :: rest /\ r.1 = (strip a, strip b)
    /\ is_category_line a = true /\ is_category_line b = true
    /\ has_header_pair rest = false
    /\ sublist r.2 lines.
Proof.
  revert i. induction f as [|f IH]; intros i.
  { intros Hr. by apply elem_of_nil in Hr. }
  rewrite info_loop_S.
  destruct (i + 1 <? length lines) eqn:Hi; [|intros Hr; by apply elem_of_nil in Hr].
  apply Nat.ltb_lt in Hi.
  destruct (is_category_line (nth i lines []) && is_category_line (nth (i + 1) lines []))
    eqn:Hab; [|apply IH].
  intros Hr. apply elem_of_cons in Hr as [-> | Hr]; [|by eapply IH].
  apply andb_true_iff in Hab as [Ha Hb].
  destruct (inner_loop_in_lines lines i) as (Hj1 & Hj2 & _ & Hno & _); [lia|].
  set (j := inner_loop (drop (i + 2) lines) (i + 2)) in *.
  exists (nth i lines []), (nth (i + 1) lines []), (slice lines (i + 2) j).
  cbn [fst snd]. split.
  - rewrite <- (slice_app lines i (i + 2) j) by lia. 
    change (?a :: ?b :: ?r) with ([a; b] ++ r). f_equal.
    unfold slice. replace (i + 2 - i) with 2 by lia.
    destruct (drop i lines) as [|x [|y l]] eqn:Hd.
    + apply (f_equal length) in Hd. rewrite length_drop in Hd. simpl in Hd. lia.
    + apply (f_equal length) in Hd. rewrite length_drop in Hd. simpl in Hd. lia.
    + pose proof (nth_drop lines i 0 []) as H0.
      pose proof (nth_drop lines i 1 []) as H1.
      rewrite Hd in H0, H1. simpl in H0, H1.
      rewrite Nat.add_0_r in H0. by rewrite <- H0, <- H1.
  - split; [done|]. split; [done|]. split; [done|]. split; [done|].
    unfold slice. etrans; [apply sublist_take|apply sublist_drop].
Qed.

(** ** [strip] *)

Lemma span_len_take_le p (l : text) n : span_len p (take n l) <= span_len p l.
Proof.
  revert n. induction l as [|c l IH]; intros [|n]; simpl; try lia.
  destruct (p c); [|lia]. specialize (IH n). lia.
Qed.

Lemma rstrip_take s : rstrip s = take (length s - span_len Chr.isspace (reverse s)) s.
Proof. unfold rstrip. by rewrite drop_reverse, reverse_involutive. Qed.

Lemma strip_starts s : span_len Chr.isspace (strip s) = 0.
Proof.
  unfold strip. rewrite rstrip_take.
  pose proof (span_len_take_le Chr.isspace (drop (span_len Chr.isspace s) s)
    (length (drop (span_len Chr.isspace s) s)
     - span_len Chr.isspace (reverse (drop (span_len Chr.isspace s) s)))) as Hle.
  rewrite span_len_drop_span in Hle. lia.
Qed.

Lemma strip_idemp s : strip (strip s) = strip s.
Proof.
  unfold strip at 1. rewrite strip_starts, drop_0.
  unfold strip. apply rstrip_idemp.
Qed.

Lemma is_category_line_strip line :
  is_category_line (strip line) = is_category_line line.
Proof. unfold is_category_line. by rewrite strip_idemp. Qed.


(** ** [splitlines] *)

Lemma splitlines_from_no_linebreak cur s :
  no_linebreak cur -> Forall no_linebreak (splitlines_from cur s).
Proof.
  assert (Hnil : no_linebreak []) by constructor.
  assert (Hgen : forall n s cur, length s <= n -> no_linebreak cur ->
            Forall no_linebreak (splitlines_from cur s)); [|by apply (Hgen (length s))].
  clear cur s. induction n as [|n IH]; intros s cur Hn Hcur.
  { destruct s; [|simpl in Hn; lia]. simpl.
    destruct cur; [constructor|]. constructor; [done|constructor]. }
  destruct s as [|c s]; simpl.
  { destruct cur; [constructor|]. constructor; [done|constructor]. }
  simpl in Hn. case_bool_decide as Hcr.
  - destruct s as [|d s]; [constructor; [done|constructor]|].
    simpl in Hn. case_bool_decide.
    + constructor; [done|]. apply IH; [lia|done].
    + constructor; [done|]. apply IH; [simpl; lia|done].
  - destruct (Chr.is_linebreak c) eqn:Hc.
    + constructor; [done|]. apply IH; [lia|done].
    + apply IH; [lia|]. apply Forall_app. split; [done|].
      constructor; [done|constructor].
Qed.

Lemma splitlines_from_line cur l rest :
  no_linebreak l ->
  splitlines_from cur (l ++ LF :: rest) = (cur ++ l) :: splitlines_from [] rest.
Proof.
  revert cur. induction l as [|c l IH]; intros cur Hl.
  { by rewrite app_nil_r. }
  apply Forall_cons in Hl as [Hc Hl].
  cbn [app splitlines_from].
  case_bool_decide as Hcr; [by subst c|].
  rewrite Hc, IH by done. by rewrite <- app_assoc.
Qed.

Lemma splitlines_join lines :
  lines <> [] -> Forall no_linebreak lines ->
  splitlines (join [LF] lines ++ [LF]) = lines.
Proof.
  unfold splitlines. induction lines as [|l lines IH]; [done|].
  intros _ Hall. apply Forall_cons in Hall as [Hl Hall].
  destruct lines as [|l' lines].
  - cbn [join]. by rewrite splitlines_from_line.
  - change (join [LF] (l :: l' :: lines)) with (l ++ [LF] ++ join [LF] (l' :: lines)).
    rewrite <- !app_assoc. cbn [app].
    rewrite splitlines_from_line by done. f_equal. by apply IH.
Qed.

(** X16.  A record begins with its two header lines, its key is their
    stripped text, and no two adjacent lines after them are both header
    candidates; both key components are header candidates themselves
    and free of surrounding whitespace, and no line of a record holds a
    line boundary. *)
Theorem records_start_with_their_key doc cat name ls :
  ((cat, name), ls) ∈ parse_info_blocks doc ->
  (exists a b rest,
      ls = a :: b :: rest /\ cat = strip a /\ name = strip b
      /\ has_header_pair rest = false)
  /\ is_category_line cat = true /\ is_category_line name = true
  /\ strip cat = cat /\ strip name = name
  /\ Forall no_linebreak ls.
Proof.
  destruct doc as [s|]; simpl; [|intros Hr; by apply elem_of_nil in Hr].
  intros Hr. apply info_loop_shape in Hr
    as (a & b & rest & Hls & [= -> ->] & Ha & Hb & Hno & Hsub).
  cbn [snd] in *. split; [by exists a, b, rest|].
  rewrite !is_category_line_strip, !strip_idemp.
  repeat split; try done.
  apply Forall_forall. intros l Hl.
  pose proof (splitlines_from_no_linebreak [] s (Forall_nil_2 _)) as Hall.
  rewrite Forall_forall in Hall. apply Hall.
  by apply (elem_of_sublist _ _ _ Hl).
Qed.

(** ** Adding a document twice *)

Lemma add_block_fst st recs : (foldl add_block st recs).1 = foldl store st.1 recs.
Proof.
  revert st. induction recs as [|[k ls] recs IH]; intros [out order]; [done|].
  simpl. by rewrite IH.
Qed.

Lemma foldl_store_lookup m recs k :
  foldl store m recs !! k
  = match latest k recs with Some l => Some l | None => m !! k end.
Proof.
  induction recs as [|[k' ls] recs IH] using rev_ind; [done|].
  rewrite foldl_app, latest_snoc. simpl. unfold store at 1. simpl.
  destruct (decide (k' = k)) as [->|Hne].
  - by rewrite lookup_insert_eq.
  - by rewrite lookup_insert_ne.
Qed.

Lemma add_block_known out order recs :
  (forall k, k ∈ map fst recs -> is_Some (out !! k)) ->
  foldl add_block (out, order) recs = (foldl store out recs, order).
Proof.
  revert out. induction recs as [|[k ls] recs IH]; intros out Hin; [done|].
  assert (Hk : has_key out k = true).
  { apply has_key_true, Hin. simpl. by left. }
  simpl. rewrite Hk.
  apply IH. intros k' Hk'. unfold store. simpl.
  destruct (decide (k = k')) as [->|Hne].
  - rewrite lookup_insert_eq. eauto.
  - rewrite lookup_insert_ne by done. apply Hin. simpl. by right.
Qed.

Lemma add_blocks_twice st doc : add_blocks (add_blocks st doc) doc = add_blocks st doc.
Proof.
  unfold add_blocks. set (recs := parse_info_blocks (Some doc)).
  destruct (foldl add_block st recs) as [out order] eqn:Hst.
  assert (Hout : out = foldl store st.1 recs).
  { by rewrite <- add_block_fst, Hst. }
  rewrite add_block_known.
  - f_equal. apply map_eq. intros k. rewrite foldl_store_lookup.
    destruct (latest k recs) as [l|] eqn:Hl; [|done].
    by rewrite Hout, foldl_store_lookup, Hl.
  - intros k Hk. apply latest_is_Some in Hk as [l Hl].
    rewrite Hout, foldl_store_lookup, Hl. eauto.
Qed.

Lemma add_blocks_empty st : add_blocks st [] = st.
Proof. done. Qed.

(** X17.  Adding a cache document a second time changes nothing: when
    the proposed cache equals the mainline's, or the mainline's equals
    the ancestor's, the merge is the same as with the repeated side
    absent, and three equal documents merge like one. *)
Theorem repeated_cache_document_adds_nothing (mb d head : option text) :
  merge_fp_info_3way mb d d = merge_fp_info_3way mb d None
  /\ merge_fp_info_3way d d head = merge_fp_info_3way d None head
  /\ merge_fp_info_3way d d d = merge_fp_info_3way None None d.
Proof.
  unfold merge_fp_info_3way, fp_info_union.
  change (or_empty None) with (@nil ascii).
  by rewrite !add_blocks_empty, !add_blocks_twice.
Qed.

(** X18.  The merged cache text splits back into the stored lines:
    with at least one record its lines are exactly the lines of the
    stored records in output order, each of them a line of one of the
    three documents; without records the text is a single line feed. *)
Theorem merged_cache_lines (mb base head : option text) (out : text) :
  merge_fp_info_3way mb base head = Some out ->
  exists stored,
    Forall2 (fun k ls => latest k (all_records mb base head) = Some ls)
            (fp_info_union mb base head).2 stored
    /\ (all_records mb base head = [] -> out = [LF])
    /\ (all_records mb base head <> [] ->
        splitlines out = concat stored
        /\ Forall (fun l => l ∈ splitlines (or_empty mb)
                            \/ l ∈ splitlines (or_empty base)
                            \/ l ∈ splitlines (or_empty head)) (splitlines out)).
Proof.
  intros Hm.
  pose proof (union_ok_fold (all_records mb base head)) as Hok.
  rewrite <- fp_info_union_fold in Hok.
  unfold merge_fp_info_3way in Hm.
  destruct (fp_info_union mb base head) as [o order].
  destruct Hok as (_ & Hin & Hout & _). cbn [fst snd] in *.
  destruct (mapM (fun key => o !! key) order) as [stored|] eqn:Hs; [|done].
  injection Hm as <-. apply mapM_Some in Hs. exists stored.
  assert (Hst : Forall2 (fun k ls => latest k (all_records mb base head) = Some ls)
                  order stored).
  { eapply Forall2_impl; [exact Hs|]. intros k ls Hk. by rewrite <- Hout. }
  split; [done|]. split.
  - intros Hnil. destruct order as [|k order].
    + by apply Forall2_nil_inv_l in Hs as ->.
    + assert (Hk : k ∈ map fst (all_records mb base head)) by (apply Hin; left).
      rewrite Hnil in Hk. by apply elem_of_nil in Hk.
  - intros Hne.
    assert (Hlines : Forall (fun l => l ∈ splitlines (or_empty mb)
                            \/ l ∈ splitlines (or_empty base)
                            \/ l ∈ splitlines (or_empty head)) (concat stored)).
    { apply Forall_concat. clear Hne. 
      clear Hs Hin.
      induction Hst as [|k ls order stored Hk _ IH]; [constructor|].
      constructor; [|done].
      apply latest_elem in Hk. unfold all_records in Hk.
      rewrite !elem_of_app in Hk. apply Forall_forall. intros l Hl.
      destruct Hk as [Hk|[Hk|Hk]]; simpl in Hk;
        apply info_loop_shape in Hk as (_ & _ & _ & _ & _ & _ & _ & _ & Hsub);
        cbn [snd] in Hsub; pose proof (elem_of_sublist _ _ _ Hl Hsub); tauto. }
    assert (Hnl : Forall no_linebreak (concat stored)).
    { eapply Forall_impl; [exact Hlines|]. intros l Hl. cbv beta in Hl.
      assert (Hall : forall t, Forall no_linebreak (splitlines t)).
      { intros t. apply splitlines_from_no_linebreak. constructor. }
      destruct Hl as [Hl|[Hl|Hl]];
        exact (proj1 (Forall_forall _ _) (Hall _) _ Hl). }
    assert (Hne' : concat stored <> []).
    { destruct (all_records mb base head) as [|[k0 l0] recs] eqn:Hrecs; [done|].
      assert (Hk0 : k0 ∈ order) by (apply Hin; left).
      apply list_elem_of_lookup in Hk0 as [i Hi].
      destruct (Forall2_lookup_l _ _ _ _ _ Hst Hi) as (ls & Hls & Hlatest).
      apply latest_elem in Hlatest. rewrite <- Hrecs in Hlatest.
      unfold all_records in Hlatest. rewrite !elem_of_app in Hlatest.
      assert (Hsh : exists a b rest, ls = a :: b :: rest).
      { destruct Hlatest as [Hk|[Hk|Hk]]; simpl in Hk;
          apply info_loop_shape in Hk as (a & b & rest & Hk & _); eauto. }
      destruct Hsh as (a & b & rest & ->).
      intros Hnil.
      apply list_elem_of_lookup_2 in Hls. apply list_elem_of_split in Hls as (l1 & l2 & ->).
      rewrite concat_app in Hnil. by apply app_eq_nil in Hnil as [_ Hnil]. }
    rewrite splitlines_join by done. done.
Qed.

(** ** The changed files *)



(** X20.  A listing of clean paths, one per line, is read back as
    exactly these paths. *)
Theorem changed_files_reads_back_a_listing (paths : list text) (err : text) :
  Forall (fun p => p <> [] /\ strip p = p /\ no_linebreak p) paths ->
  changed_files (0%Z, join [LF] paths ++ [LF], err) = returns paths.
Proof.
  intros Hall. unfold changed_files. rewrite bool_decide_eq_false_2 by lia.
  f_equal. destruct (decide (paths = [])) as [->|Hne]; [done|].
  rewrite splitlines_join; [|done|].
  2:{ eapply Forall_impl; [exact Hall|]. by intros p (_ & _ & Hp). }
  clear Hne. induction Hall as [|p paths (Hp1 & Hp2 & _) _ IH]; [done|].
  rewrite filter_cons_True by by rewrite Hp2.
  simpl. by rewrite Hp2, IH.
Qed.

(** * Further instances *)

Lemma block_reparses_to_itself_witness :
  parse_top_blocks (Some wire_b) = [(txt "wire", txt "bbbbbbbb", wire_b)]
  /\ (txt "wire", txt "bbbbbbbb") = text_key wire_b.
Proof.
  apply (block_reparses_to_itself (Some two_wires)).
  apply (bool_decide_unpack _). vm_compute. exact I.
Defined.

Lemma quote_free_block_is_balanced_witness :
  count_char lparen wire_b = count_char rparen wire_b
  /\ forall m, 0 < m -> m < length wire_b ->
       count_char rparen (take m wire_b) < count_char lparen (take m wire_b).
Proof.
  apply (quote_free_block_is_balanced (Some two_wires) (txt "wire") (txt "bbbbbbbb")).
  - apply (bool_decide_unpack _). vm_compute. exact I.
  - apply (bool_decide_unpack _). vm_compute. exact I.
Defined.

Lemma rebuild_from_fails_iff_witness :
  rebuild_from elements (Some wire_a1) {[key_b]} ∅ = None
  <-> exists k, (k ∈ ({[key_b]} : gset key))
                /\ (k ∉ block_keys (default skeleton (Some wire_a1)))
                /\ ((∅ : gmap key text) !! k = None).
Proof. apply (rebuild_from_fails_iff elements elements_perm). Defined.

Lemma rebuild_from_is_rstripped_witness : rstrip (txt " x") = txt " x".
Proof.
  apply (rebuild_from_is_rstripped elements elements_perm (Some two_wires) ∅ ∅).
  vm_compute. reflexivity.
Defined.

Lemma merge_kicad_3way_raises_no_KeyError_witness :
  is_Some (reconcile elements (Some wire_a1) (Some wire_a2) (Some wire_b)
                     (txt "prefer-head") true)
  /\ is_Some (merge_kicad_3way elements (Some wire_a1) (Some wire_a2) (Some wire_b)
                               (txt "prefer-head") true).
Proof. apply (merge_kicad_3way_raises_no_KeyError elements elements_perm). Defined.

Lemma reconcile_takes_blocks_from_mainline_or_proposed_witness :
  exists st,
    reconcile elements (Some wire_a1) (Some wire_a2) (Some (wire_a1 ++ wire_b))
              (txt "prefer-base") false = Some st
    /\ forall k,
        (k ∈ st.1 <-> is_Some (st.2 !! k))
        /\ (k ∈ st.1 ->
            k ∈ dom (snapshot (parse_top_blocks (Some wire_a2)))
                ∪ dom (snapshot (parse_top_blocks (Some (wire_a1 ++ wire_b)))))
        /\ (forall c,
              st.2 !! k = Some c ->
              snapshot (parse_top_blocks (Some wire_a2)) !! k = Some c
              \/ snapshot (parse_top_blocks (Some (wire_a1 ++ wire_b))) !! k = Some c).
Proof.
  exists ({[key_a; key_b]}, {[key_a := wire_a2; key_b := wire_b]}).
  assert (Hst : reconcile elements (Some wire_a1) (Some wire_a2)
                  (Some (wire_a1 ++ wire_b)) (txt "prefer-base") false
                = Some ({[key_a; key_b]}, {[key_a := wire_a2; key_b := wire_b]})).
  { apply (bool_decide_unpack _). vm_compute. exact I. }
  split; [exact Hst|].
  apply (reconcile_takes_blocks_from_mainline_or_proposed elements elements_perm
           _ _ _ _ _ _ Hst).
Defined.

Lemma allow_deletions_only_drops_proposed_removals_witness :
  exists st_keep st_del,
    reconcile elements (Some wire_a1) (Some (wire_a1 ++ wire_b)) (Some wire_b)
              (txt "prefer-head") false = Some st_keep
    /\ reconcile elements (Some wire_a1) (Some (wire_a1 ++ wire_b)) (Some wire_b)
                 (txt "prefer-head") true = Some st_del
    /\ (forall k, k ∈ dom (snapshot (parse_top_blocks (Some (wire_a1 ++ wire_b)))) ->
                  k ∈ st_keep.1)
    /\ (forall k,
          k ∈ st_del.1 <->
          k ∈ st_keep.1
          /\ ~ (k ∈ dom (snapshot (parse_top_blocks (Some wire_a1)))
                /\ k ∈ dom (snapshot (parse_top_blocks (Some (wire_a1 ++ wire_b))))
                /\ k ∉ dom (snapshot (parse_top_blocks (Some wire_b)))))
    /\ (forall k, k ∈ st_del.1 -> st_del.2 !! k = st_keep.2 !! k).
Proof.
  exists ({[key_a; key_b]}, {[key_a := wire_a1; key_b := wire_b]}),
         ({[key_b]}, {[key_b := wire_b]}).
  assert (Hk : reconcile elements (Some wire_a1) (Some (wire_a1 ++ wire_b))
                 (Some wire_b) (txt "prefer-head") false
               = Some ({[key_a; key_b]}, {[key_a := wire_a1; key_b := wire_b]})).
  { apply (bool_decide_unpack _). vm_compute. exact I. }
  assert (Hd : reconcile elements (Some wire_a1) (Some (wire_a1 ++ wire_b))
                 (Some wire_b) (txt "prefer-head") true
               = Some ({[key_b]}, {[key_b := wire_b]})).
  { apply (bool_decide_unpack _). vm_compute. exact I. }
  split; [exact Hk|]. split; [exact Hd|].
  apply (allow_deletions_only_drops_proposed_removals elements elements_perm
           _ _ _ _ _ _ Hk Hd).
Defined.

Lemma other_modes_merge_alike_witness :
  reconcile elements (Some wire_a1) (Some wire_a2) (Some wire_a1) (txt "add-only") false
  = reconcile elements (Some wire_a1) (Some wire_a2) (Some wire_a1) (txt "prefer-base") false
  /\ merge_kicad_3way elements (Some wire_a1) (Some wire_a2) (Some wire_a1)
                      (txt "add-only") false
     = merge_kicad_3way elements (Some wire_a1) (Some wire_a2) (Some wire_a1)
                        (txt "prefer-base") false.
Proof.
  apply (other_modes_merge_alike elements elements_perm).
  - apply (bool_decide_unpack _). vm_compute. exact I.
  - apply (bool_decide_unpack _). vm_compute. exact I.
Defined.

Lemma unchanged_proposal_returns_mainline_witness :
  merge_kicad_3way elements (Some wire_b) (Some two_wires) (Some two_wires)
                   (txt "prefer-head") true
  = Some (rstrip two_wires).
Proof.
  apply (unchanged_proposal_returns_mainline elements elements_perm).
  apply consistent_keys_NoDup.
  apply (bool_decide_unpack _). vm_compute. exact I.
Defined.


Lemma rooted_documents_merge_to_mainline_witness :
  parse_top_blocks (Some rooted_a) = [] /\ parse_top_blocks (Some rooted_ab) = []
  /\ merge_kicad_3way elements (Some rooted_a) (Some rooted_a) (Some rooted_ab)
                      (txt "prefer-head") false
     = Some (rstrip rooted_a).
Proof.
  apply (rooted_documents_merge_to_mainline elements elements_perm).
  - exists 0, (length rooted_a). repeat split; vm_compute; reflexivity.
  - exists 0, (length rooted_ab). repeat split; vm_compute; reflexivity.
Defined.

Lemma records_start_with_their_key_witness :
  (exists a b rest,
      map txt ["Resistor_SMD"; "R_0603"; "0603 resistor"]%string = a :: b :: rest
      /\ txt "Resistor_SMD" = strip a /\ txt "R_0603" = strip b
      /\ has_header_pair rest = false)
  /\ is_category_line (txt "Resistor_SMD") = true
  /\ is_category_line (txt "R_0603") = true
  /\ strip (txt "Resistor_SMD") = txt "Resistor_SMD"
  /\ strip (txt "R_0603") = txt "R_0603"
  /\ Forall no_linebreak (map txt ["Resistor_SMD"; "R_0603"; "0603 resistor"]%string).
Proof.
  apply (records_start_with_their_key (Some cache_doc)).
  apply (bool_decide_unpack _). vm_compute. exact I.
Defined.

Lemma merged_cache_lines_witness :
  exists stored,
    Forall2 (fun k ls => latest k (all_records None (Some cache_doc) None) = Some ls)
            (fp_info_union None (Some cache_doc) None).2 stored
    /\ (all_records None (Some cache_doc) None = [] ->
        txt "Resistor_SMD" ++ [LF] ++ txt "R_0603" ++ [LF] ++ txt "0603 resistor" ++ [LF]
        = [LF])
    /\ (all_records None (Some cache_doc) None <> [] ->
        splitlines (txt "Resistor_SMD" ++ [LF] ++ txt "R_0603" ++ [LF]
                    ++ txt "0603 resistor" ++ [LF])
        = concat stored
        /\ Forall (fun l => l ∈ splitlines (or_empty None)
                            \/ l ∈ splitlines (or_empty (Some cache_doc))
                            \/ l ∈ splitlines (or_empty None))
                  (splitlines (txt "Resistor_SMD" ++ [LF] ++ txt "R_0603" ++ [LF]
                               ++ txt "0603 resistor" ++ [LF]))).
Proof.
  apply (merged_cache_lines None (Some cache_doc) None).
  vm_compute. reflexivity.
Defined.


Lemma changed_files_reads_back_a_listing_witness :
  changed_files (0%Z, join [LF] [txt "a.kicad_sch"; txt "fp-info-cache"] ++ [LF], [])
  = returns [txt "a.kicad_sch"; txt "fp-info-cache"].
Proof.
  apply (changed_files_reads_back_a_listing [txt "a.kicad_sch"; txt "fp-info-cache"]).
  repeat (constructor;
          [split; [discriminate|split; [vm_compute; reflexivity|repeat constructor]]|]).
  constructor.
Defined.
